(** * Tunneled, upgradeable sockets: a model of [workerd/api/sockets.c++]

    The development embeds the socket lifecycle code of
    [src/workerd/api/sockets.c++] and [src/workerd/api/sockets.h]:
    the host validator, the option parsers, [setupSocket],
    [connectImplNoOutputLock], [Socket::close], [Socket::startTls],
    [Socket::handleProxyStatus], [Socket::handleReadableEof] and
    [Socket::maybeCloseWriteSide].

    The header under src is older than the implementation file: its
    [SocketOptions] and its constructor lack members the implementation
    uses ([secureTransport], [tlsStarter], [isSecureSocket], [domain],
    [closureInProgress]).  The model follows the implementation file and
    takes [resolveFulfiller], [errorHandler] and the write-disconnect listener
    from the header.

    A [Socket] is a record of the members the code reads and writes.  Member
    functions are computations in a small state-and-exception monad over that
    record: [JSG_REQUIRE] and [KJ_ASSERT] raise, assignments and moves update
    the record.  Promise continuations ([then], [catch_]) are modelled by the
    settlement of the promise they are attached to: the settlement is an input
    of the model, the continuation runs when the promise settles that way. *)

From Stdlib Require Import ZArith NArith List String Ascii Bool Lia.
From Stdlib Require Import DecimalString.
Import ListNotations.

Local Open Scope bool_scope.
Local Open Scope string_scope.

(** ** Exceptions *)

(** What [JSG_REQUIRE] / [JSG_FAIL_REQUIRE] and [KJ_ASSERT] throw, and the
    failure of a heap allocation. *)
Inductive Exn : Type :=
| TypeError (message : string)
| AssertionFailed (condition : string)
| AllocationFailed.

(** ** Address validation *)

Module Host.

Definition in_range (lo hi c : ascii) : bool :=
  (nat_of_ascii lo <=? nat_of_ascii c)%nat && (nat_of_ascii c <=? nat_of_ascii hi)%nat.

(** The body of the [switch] in [isValidHost]: [true] for [break],
    [false] for [return false]. *)
Definition host_char (c : ascii) : bool :=
  match c with
  | "-"%char | "."%char | "_"%char
  | "["%char | "]"%char | ":"%char => true
  | _ => in_range "a" "z" c || in_range "A" "Z" c || in_range "0" "9" c
  end.

(** The [for] loop of [isValidHost]. *)
Fixpoint host_chars (host : string) : bool :=
  match host with
  | EmptyString => true
  | String c rest => if host_char c then host_chars rest else false
  end.

Definition isValidHost (host : string) : bool :=
  if (255 <? String.length host)%nat || (String.length host =? 0)%nat
  then false
  else host_chars host.

End Host.
Export Host.

(** ** Socket options *)

Record SocketOptions : Type := mkSocketOptions {
  secureTransport : option string;
  allowHalfOpen : bool
}.

Inductive SecureTransportKind : Type := OFF | STARTTLS | ON.

Definition SecureTransportKind_eqb (a b : SecureTransportKind) : bool :=
  match a, b with
  | OFF, OFF | STARTTLS, STARTTLS | ON, ON => true
  | _, _ => false
  end.

(** The text of a [kj::String] read as a C string, through the pointer that
    [begin()] returns: the characters before the first NUL. *)
Fixpoint c_str (s : string) : string :=
  match s with
  | String c rest => if Ascii.eqb c zero then "" else String c (c_str rest)
  | EmptyString => ""
  end.

(** [value] is the [begin()] pointer of the option: the comparisons and the
    error message see the option as a C string. *)
Definition parseSecureTransport (opts : SocketOptions) : Exn + SecureTransportKind :=
  match secureTransport opts with
  | None => inr OFF
  | Some text =>
      let value := c_str text in
      if String.eqb value "off" then inr OFF
      else if String.eqb value "starttls" then inr STARTTLS
      else if String.eqb value "on" then inr ON
      else inl (TypeError ("Unsupported value in secureTransport socket option: " ++ value))
  end.

Definition getAllowHalfOpen (opts : option SocketOptions) : bool :=
  match opts with
  | Some o => allowHalfOpen o
  | None => false
  end.

(** ** Parsing the Content-Length header

    [kj::StringPtr::tryParseAs<int64_t>] belongs to the KJ library and is not
    part of this repository.  It is [strtoll] in base 16 when the text starts
    with an optional minus sign and [0x], in base 10 otherwise, and it yields
    nothing when the text is empty, when [strtoll] stops before the end of the
    text, or when the value is out of the range of [int64_t]. *)

Module Kj.

Local Open Scope Z_scope.

Definition INT64_MIN : Z := - 2 ^ 63.
Definition INT64_MAX : Z := 2 ^ 63 - 1.

Definition code (c : ascii) : Z := Z.of_nat (nat_of_ascii c).

Definition isspace (c : ascii) : bool :=
  (code c =? 32) || ((9 <=? code c) && (code c <=? 13)).

Definition digit_value (base : Z) (c : ascii) : option Z :=
  let n := code c in
  let v := if (48 <=? n) && (n <=? 57) then Some (n - 48)
           else if (97 <=? n) && (n <=? 122) then Some (n - 87)
           else if (65 <=? n) && (n <=? 90) then Some (n - 55)
           else None in
  match v with
  | Some d => if d <? base then Some d else None
  | None => None
  end.

Fixpoint skip_space (s : string) : string :=
  match s with
  | String c rest => if isspace c then skip_space rest else s
  | EmptyString => s
  end.

(** The digits loop: the value so far, whether a digit was consumed, and the
    text left over. *)
Fixpoint digits (base : Z) (s : string) (acc : Z) (any : bool) : Z * bool * string :=
  match s with
  | String c rest =>
      match digit_value base c with
      | Some d => digits base rest (acc * base + d) true
      | None => (acc, any, s)
      end
  | EmptyString => (acc, any, s)
  end.

Definition has_hex_prefix (s : string) : bool :=
  match s with
  | String z (String x rest) => Ascii.eqb z "0" && (Ascii.eqb x "x" || Ascii.eqb x "X")
  | _ => false
  end.

Definition isHex (s : string) : bool :=
  match s with
  | String c rest => if Ascii.eqb c "-" then has_hex_prefix rest else has_hex_prefix s
  | EmptyString => false
  end.

Record strtoll_result : Type := mk_strtoll {
  value : Z;
  unparsed : string;   (* the text from [endPtr] on *)
  erange : bool
}.

Definition strtoll (s : string) (base : Z) : strtoll_result :=
  let s1 := skip_space s in
  let '(negative, s2) :=
    match s1 with
    | String c rest =>
        if Ascii.eqb c "-" then (true, rest)
        else if Ascii.eqb c "+" then (false, rest)
        else (false, s1)
    | EmptyString => (false, s1)
    end in
  let s3 :=
    match s2 with
    | String z (String x (String d rest)) =>
        if (base =? 16) && Ascii.eqb z "0" && (Ascii.eqb x "x" || Ascii.eqb x "X")
           && match digit_value 16 d with Some _ => true | None => false end
        then String d rest else s2
    | _ => s2
    end in
  let '(magnitude, any, rest) := digits base s3 0 false in
  if negb any then mk_strtoll 0 s false
  else
    let v := if negative then - magnitude else magnitude in
    if v <? INT64_MIN then mk_strtoll INT64_MIN rest true
    else if INT64_MAX <? v then mk_strtoll INT64_MAX rest true
    else mk_strtoll v rest false.

Definition tryParseAs_int64 (s : string) : option Z :=
  match s with
  | EmptyString => None
  | _ =>
      let r := strtoll s (if isHex s then 16 else 10) in
      match unparsed r with
      | EmptyString =>
          if erange r || (value r <? INT64_MIN) || (INT64_MAX <? value r)
          then None else Some (value r)
      | _ => None
      end
  end.

End Kj.


(** ** Promises and the closed signal *)

(** A JavaScript value, named by its printed form. *)
Definition JsValue : Type := string.

(** How a promise handed to the socket (by a stream controller or by the
    I/O layer) settles.  It is an input of the model. *)
Inductive Outcome : Type :=
| NeverSettles
| Fulfills
| Rejects (exc : JsValue).

(** What the closed promise can be rejected with: a JavaScript handle
    ([exc.getHandle]), a [kj::Exception] of type FAILED with its description,
    or the exception [jsg::createTunneledException] builds around a
    JavaScript value. *)
Inductive Reason : Type :=
| JsHandle (exc : JsValue)
| KjException (description : string)
| Tunneled (exc : JsValue).

Inductive ClosedPromise : Type :=
| Pending
| Resolved
| Rejected (reason : Reason).

Module Resolver.

(** Modelled from the spec: the resolver of [jsg::PromiseResolverPair]
    ([workerd/jsg], not under src).  The spec calls the closed signal a
    single-resolution, first-caller-wins completion: a [resolve] or [reject]
    on a promise that is already settled is silently ignored. *)
Definition resolve (p : ClosedPromise) : ClosedPromise :=
  match p with
  | Pending => Resolved
  | _ => p
  end.

Definition reject (reason : Reason) (p : ClosedPromise) : ClosedPromise :=
  match p with
  | Pending => Rejected reason
  | _ => p
  end.

End Resolver.

Definition settled (p : ClosedPromise) : bool :=
  match p with
  | Pending => false
  | _ => true
  end.

(** ** Stream halves and connections

    The stream controllers are outside src.  A half records which of the
    operations the socket code invokes on it have been invoked; the promises
    those operations return settle as the inputs of the model say. *)

Record ReadableStream : Type := mkReadable {
  cancelRequested : bool;
  detached : bool
}.

Record WritableStream : Type := mkWritable {
  abortRequested : bool;
  closeRequested : bool;
  flushRequested : bool;
  sinkRemoved : bool
}.

Definition newReadable : ReadableStream := mkReadable false false.
Definition newWritable : WritableStream := mkWritable false false false false.

Inductive ReadResult : Type :=
| ReadEof
| ReadBytes (bytes : string).

(** Modelled from the spec: reading from a read half ([ReadableStream], not
    under src).  A half detached in final mode is permanently unreadable: any
    further read yields end of input with no data.  Otherwise the read yields
    what the connection delivers. *)
Definition ReadableStream_read (r : ReadableStream) (delivered : ReadResult) : ReadResult :=
  if detached r then ReadEof else delivered.

Inductive Connection : Type :=
| Tunnel (address : string) (useTls : bool)
| PromisedStream (underlying : Connection).

(** [kj::TlsStarterCallback] is a [kj::Maybe] of a function from the expected
    hostname to a promise. *)
Inductive TlsStarter : Type :=
| StarterOf (address : string).

Definition TlsStarterCallback : Type := option TlsStarter.

Record TlsOptions : Type := mkTlsOptions {
  expectedServerHostname : option string
}.

(** What the continuation attached to [writable->flush(js)] in [startTls]
    captures. *)
Record UpgradeContinuation : Type := mkUpgrade {
  captured_domain : string;
  captured_tlsOptions : option TlsOptions;
  captured_tlsStarter : option TlsStarterCallback
}.

(** The error body of a rejected tunnel: [available] is what the stream hands
    over on the next read when the reader's buffer is large enough. *)
Record ErrorBody : Type := mkErrorBody {
  available : string
}.

(** The read of the error body scheduled by [handleProxyStatus]: the size of
    [buffer] (which is also [maxBytes]) and the stream. *)
Record ErrorBodyRead : Type := mkErrorBodyRead {
  buffer_size : N;
  body_stream : ErrorBody
}.

(** ** The socket *)

Record Socket : Type := mkSocket {
  connectionStream : Connection;
  readable : ReadableStream;
  writable : WritableStream;
  closeFulfiller : ClosedPromise;
  options : option SocketOptions;
  (* [kj::Own<kj::TlsStarterCallback>]: [None] once moved from. *)
  tlsStarter : option TlsStarterCallback;
  isSecureSocket : bool;
  (* [kj::String]: empty once moved from. *)
  domain : string;
  closureInProgress : bool;
  (* Continuations registered on this socket. *)
  eofListener : bool;                          (* [handleReadableEof] *)
  statusListener : bool;                       (* [handleProxyStatus] *)
  pendingErrorBody : option ErrorBodyRead;     (* the [tryRead] of the error body *)
  pendingUpgrade : option UpgradeContinuation  (* the flush in [startTls] *)
}.

Definition set_readable (v : ReadableStream) (s : Socket) : Socket :=
  mkSocket (connectionStream s) v (writable s) (closeFulfiller s) (options s)
    (tlsStarter s) (isSecureSocket s) (domain s) (closureInProgress s)
    (eofListener s) (statusListener s) (pendingErrorBody s) (pendingUpgrade s).

Definition set_writable (v : WritableStream) (s : Socket) : Socket :=
  mkSocket (connectionStream s) (readable s) v (closeFulfiller s) (options s)
    (tlsStarter s) (isSecureSocket s) (domain s) (closureInProgress s)
    (eofListener s) (statusListener s) (pendingErrorBody s) (pendingUpgrade s).

Definition set_closeFulfiller (v : ClosedPromise) (s : Socket) : Socket :=
  mkSocket (connectionStream s) (readable s) (writable s) v (options s)
    (tlsStarter s) (isSecureSocket s) (domain s) (closureInProgress s)
    (eofListener s) (statusListener s) (pendingErrorBody s) (pendingUpgrade s).

Definition set_options (v : option SocketOptions) (s : Socket) : Socket :=
  mkSocket (connectionStream s) (readable s) (writable s) (closeFulfiller s) v
    (tlsStarter s) (isSecureSocket s) (domain s) (closureInProgress s)
    (eofListener s) (statusListener s) (pendingErrorBody s) (pendingUpgrade s).

Definition set_tlsStarter (v : option TlsStarterCallback) (s : Socket) : Socket :=
  mkSocket (connectionStream s) (readable s) (writable s) (closeFulfiller s) (options s)
    v (isSecureSocket s) (domain s) (closureInProgress s)
    (eofListener s) (statusListener s) (pendingErrorBody s) (pendingUpgrade s).

Definition set_domain (v : string) (s : Socket) : Socket :=
  mkSocket (connectionStream s) (readable s) (writable s) (closeFulfiller s) (options s)
    (tlsStarter s) (isSecureSocket s) v (closureInProgress s)
    (eofListener s) (statusListener s) (pendingErrorBody s) (pendingUpgrade s).

Definition set_closureInProgress (v : bool) (s : Socket) : Socket :=
  mkSocket (connectionStream s) (readable s) (writable s) (closeFulfiller s) (options s)
    (tlsStarter s) (isSecureSocket s) (domain s) v
    (eofListener s) (statusListener s) (pendingErrorBody s) (pendingUpgrade s).

Definition set_eofListener (v : bool) (s : Socket) : Socket :=
  mkSocket (connectionStream s) (readable s) (writable s) (closeFulfiller s) (options s)
    (tlsStarter s) (isSecureSocket s) (domain s) (closureInProgress s)
    v (statusListener s) (pendingErrorBody s) (pendingUpgrade s).

Definition set_statusListener (v : bool) (s : Socket) : Socket :=
  mkSocket (connectionStream s) (readable s) (writable s) (closeFulfiller s) (options s)
    (tlsStarter s) (isSecureSocket s) (domain s) (closureInProgress s)
    (eofListener s) v (pendingErrorBody s) (pendingUpgrade s).

Definition set_pendingErrorBody (v : option ErrorBodyRead) (s : Socket) : Socket :=
  mkSocket (connectionStream s) (readable s) (writable s) (closeFulfiller s) (options s)
    (tlsStarter s) (isSecureSocket s) (domain s) (closureInProgress s)
    (eofListener s) (statusListener s) v (pendingUpgrade s).

Definition set_pendingUpgrade (v : option UpgradeContinuation) (s : Socket) : Socket :=
  mkSocket (connectionStream s) (readable s) (writable s) (closeFulfiller s) (options s)
    (tlsStarter s) (isSecureSocket s) (domain s) (closureInProgress s)
    (eofListener s) (statusListener s) (pendingErrorBody s) v.

(** ** Member functions as computations over the socket *)

Definition M (A : Type) : Type := Socket -> (Exn + A) * Socket.

Definition ret {A} (a : A) : M A := fun s => (inr a, s).

Definition bind {A B} (c : M A) (k : A -> M B) : M B :=
  fun s =>
    match c s with
    | (inr a, s') => k a s'
    | (inl e, s') => (inl e, s')
    end.

Definition throw {A} (e : Exn) : M A := fun s => (inl e, s).

Definition gets {A} (field : Socket -> A) : M A := fun s => (inr (field s), s).

Definition modify (f : Socket -> Socket) : M unit := fun s => (inr tt, f s).

Definition lift {A} (r : Exn + A) : M A :=
  match r with
  | inl e => throw e
  | inr a => ret a
  end.

Declare Scope socket_scope.
Delimit Scope socket_scope with socket.
Notation "x <- c ;; k" := (bind c (fun x => k))
  (at level 61, c at next level, right associativity) : socket_scope.
Notation "c ;; k" := (bind c (fun _ => k))
  (at level 61, right associativity) : socket_scope.
Local Open Scope socket_scope.

Definition JSG_REQUIRE (cond : bool) (message : string) : M unit :=
  if cond then ret tt else throw (TypeError message).

Definition KJ_ASSERT (cond : bool) (condition : string) : M unit :=
  if cond then ret tt else throw (AssertionFailed condition).

(** [js.resolvedPromise()] *)
Definition resolvedPromise : M Outcome := ret Fulfills.

(** *** Continuations

    [jsg::Promise] is outside src; it wraps a JavaScript promise.  A
    continuation attached with [then] runs when the promise fulfils, the error
    continuation of the two-argument [then] and of [catch_] runs when the
    promise itself rejects, and the promise the call returns settles as the
    promise returned by the continuation that ran; without a continuation for
    its settlement the promise passes the settlement on. *)

Definition then_ (p : Outcome) (func : M Outcome) : M Outcome :=
  match p with
  | Fulfills => func
  | _ => ret p
  end.

Definition then_else (p : Outcome) (func : M Outcome) (errorFunc : JsValue -> M Outcome)
  : M Outcome :=
  match p with
  | Fulfills => func
  | Rejects exc => errorFunc exc
  | NeverSettles => ret NeverSettles
  end.

Definition catch_ (p : Outcome) (errorFunc : JsValue -> M Outcome) : M Outcome :=
  match p with
  | Rejects exc => errorFunc exc
  | _ => ret p
  end.

(** *** Stream operations invoked by the socket *)

Definition controller_cancel : M unit :=
  modify (fun s => set_readable (mkReadable true (detached (readable s))) s).

Definition controller_abort : M unit :=
  modify (fun s =>
    let w := writable s in
    set_writable (mkWritable true (closeRequested w) (flushRequested w) (sinkRemoved w)) s).

Definition controller_close : M unit :=
  modify (fun s =>
    let w := writable s in
    set_writable (mkWritable (abortRequested w) true (flushRequested w) (sinkRemoved w)) s).

Definition writable_flush : M unit :=
  modify (fun s =>
    let w := writable s in
    set_writable (mkWritable (abortRequested w) (closeRequested w) true (sinkRemoved w)) s).

Definition writable_removeSink : M unit :=
  modify (fun s =>
    let w := writable s in
    set_writable (mkWritable (abortRequested w) (closeRequested w) (flushRequested w) true) s).

(** [readable = readable->detach(js, true)] *)
Definition readable_detach : M unit :=
  modify (fun s => set_readable (mkReadable (cancelRequested (readable s)) true) s).

(** *** sockets.h *)

Definition resolveFulfiller (maybeErr : option Reason) : M unit :=
  match maybeErr with
  | Some err => modify (fun s => set_closeFulfiller (Resolver.reject err (closeFulfiller s)) s)
  | None => modify (fun s => set_closeFulfiller (Resolver.resolve (closeFulfiller s)) s)
  end.

Definition errorHandler (err : JsValue) : M Outcome :=
  resolveFulfiller (Some (Tunneled err)) ;;
  resolvedPromise.

(** The continuation the constructor attaches to [connDisconnPromise]. *)
Definition onWriteDisconnected : M unit :=
  modify (fun s => set_closeFulfiller (Resolver.resolve (closeFulfiller s)) s).

(** *** Socket::close

    [cancelSettles] and [abortSettles] say how the promises returned by
    [cancel] and [abort] settle; the continuations attached to them are run
    as part of the call, and the result is how the promise returned by
    [close] settles. *)
Definition close (cancelSettles abortSettles : Outcome) : M Outcome :=
  controller_cancel ;;
  controller_abort ;;
  then_else cancelSettles
    (then_ abortSettles
       (resolveFulfiller None ;;
        resolvedPromise))
    (fun err => errorHandler err).

(** *** Socket::handleReadableEof and Socket::maybeCloseWriteSide *)

Definition handleReadableEof : M unit :=
  opts <- gets options ;;
  KJ_ASSERT (negb (getAllowHalfOpen opts)) "!getAllowHalfOpen(options)" ;;
  modify (set_eofListener true).

(** [isClosedOrClosing] is the controller's answer, [closeSettles] how the
    promise returned by the controller's [close] settles. *)
Definition maybeCloseWriteSide (isClosedOrClosing : bool) (closeSettles : Outcome)
  : M Outcome :=
  opts <- gets options ;;
  KJ_ASSERT (negb (getAllowHalfOpen opts)) "!getAllowHalfOpen(options)" ;;
  if isClosedOrClosing then resolvedPromise
  else
    controller_close ;;
    caught <- catch_ closeSettles
      (fun exc =>
         modify (fun s =>
           set_closeFulfiller (Resolver.reject (JsHandle exc) (closeFulfiller s)) s) ;;
         ret Fulfills) ;;
    then_ caught
      (modify (fun s => set_closeFulfiller (Resolver.resolve (closeFulfiller s)) s) ;;
       ret Fulfills).

(** *** setupSocket *)

Definition setupSocket (connection : Connection) (opts : option SocketOptions)
    (starter : option TlsStarterCallback) (isSecure : bool) (dom : string)
  : Exn + Socket :=
  let allowHalfOpen := getAllowHalfOpen opts in
  let eofPromise := negb allowHalfOpen in
  let result :=
    mkSocket connection newReadable newWritable Pending opts starter isSecure dom
      false false false None None in
  if eofPromise then
    match handleReadableEof result with
    | (inr _, s) => inr s
    | (inl e, _) => inl e
    end
  else inr result.

(** *** Socket::startTls *)

Definition invalidOptKindMsg : string :=
  "The `secureTransport` socket option must be set to 'starttls' for startTls to be used.".

Definition startTls (tlsOptions : option TlsOptions) : M Socket :=
  secure <- gets isSecureSocket ;;
  JSG_REQUIRE (negb secure) "Cannot startTls on a TLS socket." ;;
  dom <- gets domain ;;
  JSG_REQUIRE (negb (String.eqb dom "")) "startTls can only be called once." ;;
  opts <- gets options ;;
  match opts with
  | Some o =>
      kind <- lift (parseSecureTransport o) ;;
      JSG_REQUIRE (SecureTransportKind_eqb kind STARTTLS) invalidOptKindMsg
  | None => throw (TypeError invalidOptKindMsg)
  end ;;
  (* writable->flush(js).then(js, [this, domain = heapString(domain),
     tlsOptions = mv(tlsOptions), tlsStarter = mv(tlsStarter)] ...) *)
  writable_flush ;;
  starter <- gets tlsStarter ;;
  modify (set_pendingUpgrade (Some (mkUpgrade dom tlsOptions starter))) ;;
  modify (set_tlsStarter None) ;;
  let newTlsStarter : option TlsStarterCallback := Some None in
  conn <- gets connectionStream ;;
  (* kj::mv(options), kj::mv(domain) *)
  modify (set_options None) ;;
  modify (set_domain "") ;;
  lift (setupSocket (PromisedStream conn) opts newTlsStarter true dom).

(** What the continuation of a fulfilled flush yields: the hostname the
    TLS starter was called with. *)
Definition upgradeContinuation (k : UpgradeContinuation) : M string :=
  writable_removeSink ;;
  readable_detach ;;
  modify (fun s => set_closeFulfiller (Resolver.resolve (closeFulfiller s)) s) ;;
  let acceptedHostname :=
    match captured_tlsOptions k with
    | Some s =>
        match expectedServerHostname s with
        | Some expectedHost => expectedHost
        | None => captured_domain k
        end
    | None => captured_domain k
    end in
  (* KJ_ASSERT_NONNULL on the dereferenced tlsStarter, then the call; a
     starter that was moved from is treated like an empty one *)
  match captured_tlsStarter k with
  | Some (Some _) => ret acceptedHostname
  | _ => throw (AssertionFailed "*tlsStarter != nullptr")
  end.

(** The flush promise settles. *)
Definition onFlushSettled (flushSettles : Outcome) : M (option string) :=
  pending <- gets pendingUpgrade ;;
  match pending, flushSettles with
  | Some k, Fulfills =>
      modify (set_pendingUpgrade None) ;;
      host <- upgradeContinuation k ;;
      ret (Some host)
  | Some k, Rejects _ =>
      modify (set_pendingUpgrade None) ;;
      ret None
  | _, _ => ret None
  end.

(** *** Socket::handleProxyStatus *)

Record Status : Type := mkStatus {
  statusCode : N;
  (* [headers->get(kj::HttpHeaderId::CONTENT_LENGTH)] *)
  contentLength : option string;
  errorBody : option ErrorBody
}.

(** [JSG_EXCEPTION(Error)], a macro of [workerd/jsg], is the literal
    [jsg.Error]. *)
Definition JSG_EXCEPTION_Error : string := "jsg.Error".

(** The conversion of an [int64_t] to [size_t] in the argument of [kj::heapString]
    and in the [maxBytes] argument of [tryRead]. *)
Definition to_size_t (size : Z) : N := Z.to_N (size mod 2 ^ 64).

(** The allocator the code runs on ([operator new], outside src):
    [allocates heap bytes] says whether a request for [bytes] bytes is
    granted.  It is an input of the model. *)
Record Heap : Type := mkHeap {
  allocates : N -> bool
}.

(** [kj::heapString(size)] (KJ, outside src) allocates [size + 1] characters,
    computed in [size_t], and throws when the allocator refuses. *)
Definition heapString (heap : Heap) (size : N) : M unit :=
  if allocates heap ((size + 1) mod 2 ^ 64)%N then ret tt else throw AllocationFailed.

Definition handleProxyStatus : M unit :=
  modify (set_statusListener true).

(** [status.headers->get(CONTENT_LENGTH).orDefault(...).tryParseAs<int64_t>()], with
    the empty string as the default. *)
Definition maybeSize (status : Status) : option Z :=
  Kj.tryParseAs_int64
    (match contentLength status with
     | Some v => v
     | None => ""
     end).

Definition onProxyStatus (status : Status) (heap : Heap) : M unit :=
  if (statusCode status <? 200)%N || (300 <=? statusCode status)%N then
    modify (set_closureInProgress false) ;;
    (if (statusCode status =? 403)%N then
       match errorBody status with
       | Some body =>
           match maybeSize status with
           | Some size =>
               modify (set_closureInProgress true) ;;
               heapString heap (to_size_t size) ;;
               modify (set_pendingErrorBody
                         (Some (mkErrorBodyRead (to_size_t size) body)))
           | None => ret tt
           end
       | None => ret tt
       end
     else ret tt) ;;
    inProgress <- gets closureInProgress ;;
    if negb inProgress then
      resolveFulfiller
        (Some (KjException (JSG_EXCEPTION_Error ++ ": proxy request failed"))) ;;
      controller_cancel ;;
      controller_abort
    else ret tt
  else ret tt.

(** [kj::AsyncInputStream::tryRead(buffer, minBytes, maxBytes)] is outside
    src: it writes at most [maxBytes] bytes to the buffer and returns how many
    it wrote.  [take n s] is the first [n] characters of [s]. *)
Fixpoint take (n : N) (s : string) : string :=
  match s with
  | String c rest => if (n =? 0)%N then "" else String c (take (N.pred n) rest)
  | EmptyString => ""
  end.

Definition tryRead (stream : ErrorBody) (minBytes maxBytes : N) : string :=
  take maxBytes (available stream).

(** The part of a heap buffer that the read did not write: [count] characters
    from offset [from] of memory whose contents [memory] are not specified
    ([kj::heapString(size)] does not initialise the characters). *)
Fixpoint unwritten (memory : N -> ascii) (from : N) (count : nat) : string :=
  match count with
  | O => ""
  | S n => String (memory from) (unwritten memory (N.succ from) n)
  end.

(** The continuation of the error-body read. *)
Definition onErrorBodyRead (memory : N -> ascii) : M unit :=
  pending <- gets pendingErrorBody ;;
  match pending with
  | Some rd =>
      modify (set_pendingErrorBody None) ;;
      let bytes := tryRead (body_stream rd) 1 (buffer_size rd) in
      let amount := N.of_nat (String.length bytes) in
      let buffer := bytes ++ unwritten memory amount (N.to_nat (buffer_size rd - amount)) in
      resolveFulfiller (Some (KjException (JSG_EXCEPTION_Error ++ ": " ++ buffer))) ;;
      controller_cancel ;;
      controller_abort
  | None => ret tt
  end.

(** ** connect *)

Inductive AnySocketAddress : Type :=
| AddressString (str : string)
| AddressRecord (hostname : string) (port : N).

(** What [connectImplNoOutputLock] takes from its surroundings:
    [URL_host url] is the [host] of [url::URL::parse(url)] as text ([None]
    when the parse fails, [Some None] when the record has no host), and
    [isFiddle] is [IoContext::isFiddle()].  Both are outside src. *)
Record Context : Type := mkContext {
  URL_host : string -> option (option string);
  isFiddle : bool
}.

(** Modelled from the spec: [httpClient->connect] ([kj::HttpClient], not under
    src) yields the raw connection and fills in the TLS starter; the upgrade
    callback is always provided by the transport layer for connections that
    do not use TLS at open. *)
Definition HttpClient_connect (addressStr : string) (useTls : bool)
  : Connection * TlsStarterCallback :=
  (Tunnel addressStr useTls, if useTls then None else Some (StarterOf addressStr)).

Definition andThen {A B} (r : Exn + A) (k : A -> Exn + B) : Exn + B :=
  match r with
  | inl e => inl e
  | inr a => k a
  end.

Definition require (cond : bool) (message : string) : Exn + unit :=
  if cond then inr tt else inl (TypeError message).

(** The string handed to the validator and to the HTTP client. *)
Definition addressStr_of (address : AnySocketAddress) : string :=
  match address with
  | AddressString str => str
  | AddressRecord hostname port =>
      hostname ++ ":" ++ NilZero.string_of_uint (N.to_uint port)
  end.

Definition domain_of (ctx : Context) (address : AnySocketAddress) : Exn + string :=
  match address with
  | AddressString str =>
      match URL_host ctx ("https://" ++ str) with
      | None => inl (TypeError "Specified address could not be parsed.")
      | Some None => inl (TypeError "Specified address is missing hostname.")
      | Some (Some host) => inr host
      end
  | AddressRecord hostname _ => inr hostname
  end.

(** [Request::constructor], [Fetcher::getClient] and [asHttpClient], which
    the code calls between the two checks and the connect, are outside src
    and leave no trace in the socket; they are not modelled. *)
Definition connectImplNoOutputLock (ctx : Context) (address : AnySocketAddress)
    (opts : option SocketOptions) : Exn + Socket :=
  andThen (domain_of ctx address) (fun dom =>
  let addressStr := addressStr_of address in
  andThen (require (isValidHost addressStr)
    "Specified address is empty string, contains unsupported characters or is too long.")
  (fun _ =>
  andThen (require (negb (isFiddle ctx))
    "Socket API not supported in web preview mode.")
  (fun _ =>
  andThen
    match opts with
    | Some o => andThen (parseSecureTransport o)
                  (fun kind => inr (SecureTransportKind_eqb kind ON))
    | None => inr false
    end
  (fun useTls =>
  let '(connection, starter) := HttpClient_connect addressStr useTls in
  andThen (setupSocket connection opts (Some starter) useTls dom) (fun result =>
  match handleProxyStatus result with
  | (inr _, s) => inr s
  | (inl e, _) => inl e
  end))))).

(** ** Executions

    Everything that can happen to a socket once it exists: the caller invokes
    [close] or [startTls], or one of the promises the socket listens to
    settles. *)

Inductive Event : Type :=
| CallClose (cancelSettles abortSettles : Outcome)
| CallStartTls (tlsOptions : option TlsOptions)
| WriteDisconnected
| ProxyStatus (status : Status) (heap : Heap)
| ErrorBodyReadDone (memory : N -> ascii)
| ReadableEof (isClosedOrClosing : bool) (closeSettles : Outcome)
| FlushSettled (flushSettles : Outcome).

Inductive Value : Type :=
| VUnit
| VPromise (p : Outcome)
| VSocket (s : Socket)
| VHostname (h : option string).

Definition step (e : Event) : M Value :=
  match e with
  | CallClose cancelSettles abortSettles =>
      p <- close cancelSettles abortSettles ;; ret (VPromise p)
  | CallStartTls tlsOptions =>
      new <- startTls tlsOptions ;; ret (VSocket new)
  | WriteDisconnected =>
      onWriteDisconnected ;; ret VUnit
  | ProxyStatus status heap =>
      listening <- gets statusListener ;;
      if listening then
        modify (set_statusListener false) ;;
        onProxyStatus status heap ;; ret VUnit
      else ret VUnit
  | ErrorBodyReadDone memory =>
      onErrorBodyRead memory ;; ret VUnit
  | ReadableEof isClosedOrClosing closeSettles =>
      listening <- gets eofListener ;;
      if listening then
        modify (set_eofListener false) ;;
        p <- maybeCloseWriteSide isClosedOrClosing closeSettles ;; ret (VPromise p)
      else ret VUnit
  | FlushSettled flushSettles =>
      h <- onFlushSettled flushSettles ;; ret (VHostname h)
  end.

(** The socket after a sequence of events; an event that throws leaves the
    socket as it was when it threw. *)
Definition run (events : list Event) (s : Socket) : Socket :=
  fold_left (fun s e => snd (step e s)) events s.

(** The sockets the code can build: by [connect], by [startTls] on a
    reachable socket, and the states of a reachable socket after an event. *)
Inductive reachable : Socket -> Prop :=
| reachable_connect : forall ctx address opts s,
    connectImplNoOutputLock ctx address opts = inr s -> reachable s
| reachable_step : forall e s,
    reachable s -> reachable (snd (step e s))
| reachable_upgrade : forall tlsOptions s new s',
    reachable s -> startTls tlsOptions s = (inr new, s') -> reachable new.

(** The upgrade callback is there: the [kj::Own] has not been moved from and
    the [kj::Maybe] inside holds a function. *)
Definition upgradeCallback_present (s : Socket) : bool :=
  match tlsStarter s with
  | Some (Some _) => true
  | _ => false
  end.

(** The socket's [secureTransport] option is [starttls]. *)
Definition mode_is_starttls (s : Socket) : bool :=
  match options s with
  | Some o =>
      match parseSecureTransport o with
      | inr kind => SecureTransportKind_eqb kind STARTTLS
      | inl _ => false
      end
  | None => false
  end.

(** The EOF continuation is attached only to sockets whose options do not
    allow half-open operation, and a socket without an upgrade callback is
    secure or has given its domain away. *)
Definition Socket_ok (s : Socket) : bool :=
  implb (eofListener s) (negb (getAllowHalfOpen (options s)))
  && (upgradeCallback_present s || isSecureSocket s || String.eqb (domain s) "").

(** The characters the spec allows in a host name. *)
Definition host_alphabet : string :=
  "ABCDEFGHIJKLMNOPQRSTUVWXYZabcdefghijklmnopqrstuvwxyz0123456789._:[]-".

Fixpoint string_mem (c : ascii) (s : string) : bool :=
  match s with
  | String d rest => Ascii.eqb c d || string_mem c rest
  | EmptyString => false
  end.

Definition in_host_alphabet (c : ascii) : bool := string_mem c host_alphabet.

Definition isSome {A} (o : option A) : bool :=
  match o with
  | Some _ => true
  | None => false
  end.

(** One of the preconditions of [startTls] the spec lists is violated. *)
Definition precondition_violated (s : Socket) : bool :=
  isSecureSocket s
  || String.eqb (domain s) ""
  || negb (upgradeCallback_present s)
  || negb (mode_is_starttls s).

(** The socket a successful [startTls] on [s] returns: what [setupSocket]
    builds around the promised stream from the members of [s]. *)
Definition upgraded (s : Socket) : Socket :=
  mkSocket (PromisedStream (connectionStream s)) newReadable newWritable Pending
    (options s) (Some None) true (domain s) false
    (negb (getAllowHalfOpen (options s))) false None None.

(** The hostname the flush continuation of [startTls] hands to the TLS
    starter. *)
Definition acceptedHostname_of (tlsOptions : option TlsOptions) (dom : string) : string :=
  match tlsOptions with
  | Some o =>
      match expectedServerHostname o with
      | Some expectedHost => expectedHost
      | None => dom
      end
  | None => dom
  end.

(** [test] holds of the [count] numbers from [n] on. *)
Fixpoint all_from (test : N -> bool) (count : nat) (n : N) : bool :=
  match count with
  | O => true
  | S c => test n && all_from test c (N.succ n)
  end.

(** What [connect] makes of the [secureTransport] option: TLS at open
    exactly when the option, read as a C string, is [on]. *)
Definition wants_tls (opts : option SocketOptions) : bool :=
  match opts with
  | Some o =>
      match secureTransport o with
      | Some v => String.eqb (c_str v) "on"
      | None => false
      end
  | None => false
  end.

Definition is_FlushSettled (e : Event) : bool :=
  match e with
  | FlushSettled _ => true
  | _ => false
  end.

Definition is_CallStartTls (e : Event) : bool :=
  match e with
  | CallStartTls _ => true
  | _ => false
  end.

(** Concrete sockets and inputs used by the examples below. *)
Definition ctx0 : Context := mkContext (fun _ => None) false.

Definition starttls_options : SocketOptions := mkSocketOptions (Some "starttls") false.

Definition halfopen_options : SocketOptions := mkSocketOptions None true.

Definition socket0 : Socket :=
  mkSocket (Tunnel "mail.example.com:25" false) newReadable newWritable Pending
    (Some starttls_options) (Some (Some (StarterOf "mail.example.com:25"))) false
    "mail.example.com" false true true None None.

Definition socket_halfopen : Socket :=
  mkSocket (Tunnel "mail.example.com:25" false) newReadable newWritable Pending
    (Some halfopen_options) (Some (Some (StarterOf "mail.example.com:25"))) false
    "mail.example.com" false false true None None.

(** A heap that grants every request up to [PTRDIFF_MAX] bytes. *)
Definition heap0 : Heap := mkHeap (fun bytes => (bytes <=? 9223372036854775807)%N).

Definition is_ProxyStatus (e : Event) : bool :=
  match e with
  | ProxyStatus _ _ => true
  | _ => false
  end.

Definition is_ReadableEof (e : Event) : bool :=
  match e with
  | ReadableEof _ _ => true
  | _ => false
  end.



Definition status_403_negative : Status :=
  mkStatus 403 (Some "-2") (Some (mkErrorBody "blocked: policy X")).

Definition status_403_max : Status :=
  mkStatus 403 (Some "9223372036854775807") (Some (mkErrorBody "blocked: policy X")).

(** The address of 256 letters of the spec, and the socket [connect] builds
    for the structured address with an empty host name and port 80. *)
Definition a256 : string :=
  Eval vm_compute in string_of_list_ascii (repeat "a"%char 256).

Definition socket_nohost : Socket :=
  mkSocket (Tunnel ":80" false) newReadable newWritable Pending
    None (Some (Some (StarterOf ":80"))) false "" false true true None None.

(** [socket0] after a call of [startTls], and the socket the call returns. *)
Definition socket0_after_startTls : Socket :=
  Eval vm_compute in snd (startTls None socket0).

Definition socket0_upgraded : Socket :=
  Eval vm_compute in
    match fst (startTls None socket0) with
    | inr new => new
    | inl _ => socket0
    end.

(** ** Proof tools *)

(** Unfold the monad, the member functions and the record fields, leaving
    the parsers, the validators and the arithmetic tests folded. *)
Declare Reduction socket_red :=
  cbv beta iota zeta delta
    [step close startTls upgradeContinuation onFlushSettled onProxyStatus heapString
     onErrorBodyRead handleProxyStatus handleReadableEof maybeCloseWriteSide
     setupSocket resolveFulfiller errorHandler onWriteDisconnected resolvedPromise
     then_ then_else catch_ controller_cancel controller_abort controller_close
     writable_flush writable_removeSink readable_detach
     bind ret throw gets modify lift JSG_REQUIRE KJ_ASSERT
     set_readable set_writable set_closeFulfiller set_options set_tlsStarter
     set_domain set_closureInProgress set_eofListener set_statusListener
     set_pendingErrorBody set_pendingUpgrade
     connectionStream readable writable closeFulfiller options tlsStarter
     isSecureSocket domain closureInProgress eofListener statusListener
     pendingErrorBody pendingUpgrade
     cancelRequested detached abortRequested closeRequested flushRequested sinkRemoved
     Resolver.resolve Resolver.reject getAllowHalfOpen negb
     newReadable newWritable fst snd].

Ltac unfold_socket :=
  match goal with
  | |- ?g => let g' := eval socket_red in g in change g'
  end.

Ltac unfold_socket_in H :=
  match type of H with
  | ?t => let t' := eval socket_red in t in change t' in H
  end.

(** Case analysis on the innermost test the goal is stuck on. *)
Ltac break_inner :=
  match goal with
  | |- context [match ?x with _ => _ end] =>
      lazymatch x with
      | context [match _ with _ => _ end] => fail
      | _ => destruct x eqn:?
      end
  end.

Ltac break_inner_in H :=
  match type of H with
  | context [match ?x with _ => _ end] =>
      lazymatch x with
      | context [match _ with _ => _ end] => fail
      | _ => destruct x eqn:?
      end
  end.

Ltac crush_socket :=
  unfold_socket;
  repeat (break_inner; unfold_socket);
  try reflexivity; try discriminate; try congruence.

Example connect_socket0 :
  connectImplNoOutputLock ctx0 (AddressRecord "mail.example.com" 25)
    (Some starttls_options) = inr socket0.
Proof. vm_compute. reflexivity. Qed.

Example connect_socket_halfopen :
  connectImplNoOutputLock ctx0 (AddressRecord "mail.example.com" 25)
    (Some halfopen_options) = inr socket_halfopen.
Proof. vm_compute. reflexivity. Qed.

(** ** The closed signal settles once *)

Lemma resolve_settled (p : ClosedPromise) :
  settled p = true -> Resolver.resolve p = p.
Proof. destruct p; [discriminate | reflexivity | reflexivity]. Qed.

Lemma reject_settled (r : Reason) (p : ClosedPromise) :
  settled p = true -> Resolver.reject r p = p.
Proof. destruct p; [discriminate | reflexivity | reflexivity]. Qed.

Lemma step_keeps_settled (e : Event) (s : Socket) :
  settled (closeFulfiller s) = true ->
  closeFulfiller (snd (step e s)) = closeFulfiller s.
Proof.
  destruct s as [conn r w cf opts st sec dom cip eof sl peb pu].
  cbn [closeFulfiller]. intros Hcf.
  destruct cf; [discriminate Hcf | |]; clear Hcf; destruct e; crush_socket.
Qed.

Lemma run_app (es1 es2 : list Event) (s : Socket) :
  run (es1 ++ es2) s = run es2 (run es1 s).
Proof. unfold run. apply fold_left_app. Qed.

Lemma run_keeps_settled (events : list Event) :
  forall s, settled (closeFulfiller s) = true ->
            closeFulfiller (run events s) = closeFulfiller s.
Proof.
  induction events as [|e events IH]; intros s Hs; [reflexivity|].
  change (run (e :: events) s) with (run events (snd (step e s))).
  rewrite IH; rewrite step_keeps_settled; auto.
Qed.

(** What an event returns or throws does not depend on the closed signal. *)
Lemma step_result_ignores_closed (e : Event) (s : Socket) (p : ClosedPromise) :
  fst (step e (set_closeFulfiller p s)) = fst (step e s).
Proof.
  destruct s as [conn r w cf opts st sec dom cip eof sl peb pu].
  destruct e; crush_socket.
Qed.

(** ** Invariants of reachable sockets *)

Lemma setupSocket_succeeds conn opts starter sec dom :
  exists s, setupSocket conn opts starter sec dom = inr s
            /\ eofListener s = negb (getAllowHalfOpen opts)
            /\ options s = opts /\ tlsStarter s = starter
            /\ isSecureSocket s = sec /\ domain s = dom
            /\ closeFulfiller s = Pending
            /\ readable s = newReadable /\ writable s = newWritable
            /\ statusListener s = false.
Proof.
  unfold setupSocket.
  destruct (getAllowHalfOpen opts) eqn:Hopts; cbn [negb].
  - eexists; split; [reflexivity|]. cbn. repeat split; reflexivity.
  - unfold handleReadableEof, bind, gets, KJ_ASSERT, modify. cbn [options].
    rewrite Hopts. cbn [negb ret].
    eexists; split; [reflexivity|]. cbn. repeat split; reflexivity.
Qed.

Lemma connect_ok ctx address opts s :
  connectImplNoOutputLock ctx address opts = inr s -> Socket_ok s = true.
Proof.
  unfold connectImplNoOutputLock, andThen, require, HttpClient_connect.
  destruct (domain_of ctx address) as [e|dom]; [discriminate|].
  destruct (isValidHost (addressStr_of address)); [|discriminate].
  destruct (negb (isFiddle ctx)); [|discriminate].
  destruct (match opts with
            | Some o => _
            | None => _
            end) as [e|useTls]; [discriminate|].
  cbv beta iota zeta.
  match goal with
  | |- context [setupSocket ?c ?o ?st ?sec ?d] =>
      destruct (setupSocket_succeeds c o st sec d)
        as (s0 & -> & Heof & Hopts & Hst & Hsec & Hdom & _)
  end.
  destruct s0 as [conn r w cf opts0 st sec0 dom0 cip eof sl peb pu].
  cbn in *. subst. intros [= <-].
  unfold Socket_ok. cbn.
  destruct useTls, (getAllowHalfOpen opts); reflexivity.
Qed.

Lemma step_ok (e : Event) (s : Socket) :
  Socket_ok s = true -> Socket_ok (snd (step e s)) = true.
Proof.
  destruct s as [conn r w cf opts st sec dom cip eof sl peb pu].
  unfold Socket_ok at 1.
  destruct opts as [[tr aho]|]; [destruct aho|];
    destruct st as [[t|]|]; destruct eof, sec; cbn; intros H;
    try discriminate H;
    destruct e; unfold Socket_ok, upgradeCallback_present; unfold_socket;
    repeat (break_inner; unfold_socket);
    cbn in *; rewrite ?H; try reflexivity; congruence.
Qed.

(** What a successful [startTls] has done when it returns: the preconditions
    held, the new socket is the one [setupSocket] builds around the promised
    stream, and the old socket has given away its options, domain and
    starter and waits for the flush. *)
Lemma startTls_inv tlsOptions s new s' :
  startTls tlsOptions s = (inr new, s') ->
  isSecureSocket s = false
  /\ String.eqb (domain s) "" = false
  /\ mode_is_starttls s = true
  /\ setupSocket (PromisedStream (connectionStream s)) (options s) (Some None) true
       (domain s) = inr new
  /\ closeFulfiller s' = closeFulfiller s
  /\ readable s' = readable s
  /\ flushRequested (writable s') = true
  /\ sinkRemoved (writable s') = sinkRemoved (writable s)
  /\ pendingUpgrade s' = Some (mkUpgrade (domain s) tlsOptions (tlsStarter s))
  /\ options s' = None /\ domain s' = "" /\ tlsStarter s' = None.
Proof.
  destruct s as [conn r w cf opts st sec dom cip eof sl peb pu].
  intros H. unfold mode_is_starttls. unfold_socket_in H. unfold_socket.
  repeat (break_inner_in H; unfold_socket_in H; unfold_socket; try discriminate H);
    injection H as <- <-; repeat split; try reflexivity; try congruence.
Qed.

Lemma startTls_new_ok tlsOptions s new s' :
  startTls tlsOptions s = (inr new, s') ->
  Socket_ok new = true /\ isSecureSocket new = true.
Proof.
  intros H. apply startTls_inv in H.
  destruct H as (_ & _ & _ & Hnew & _).
  destruct (setupSocket_succeeds (PromisedStream (connectionStream s)) (options s)
              (Some None) true (domain s))
    as (s0 & Hs0 & Heof & Hopts & Hst & Hsec & _).
  rewrite Hs0 in Hnew. injection Hnew as <-.
  split; [|exact Hsec].
  unfold Socket_ok, upgradeCallback_present.
  rewrite Heof, Hopts, Hst, Hsec.
  destruct (getAllowHalfOpen (options s)); reflexivity.
Qed.

Lemma reachable_ok (s : Socket) : reachable s -> Socket_ok s = true.
Proof.
  induction 1 as [ctx address opts s Hc | e s _ IH | tlsOptions s new s' _ _ Hup].
  - eapply connect_ok; eassumption.
  - apply step_ok; assumption.
  - eapply startTls_new_ok; eassumption.
Qed.

Lemma step_keeps_eof_unattached (e : Event) (s : Socket) :
  eofListener s = false -> eofListener (snd (step e s)) = false.
Proof.
  destruct s as [conn r w cf opts st sec dom cip eof sl peb pu].
  cbn [eofListener]. intros ->.
  destruct e; crush_socket.
Qed.

Lemma run_keeps_eof_unattached (events : list Event) :
  forall s, eofListener s = false -> eofListener (run events s) = false.
Proof.
  induction events as [|e events IH]; intros s Hs; [exact Hs|].
  change (run (e :: events) s) with (run events (snd (step e s))).
  apply IH, step_keeps_eof_unattached, Hs.
Qed.

(** ** close *)

(** Both halves tear down: the closed signal is resolved. *)
Lemma close_both_fulfil (s : Socket) :
  fst (close Fulfills Fulfills s) = inr Fulfills
  /\ closeFulfiller (snd (close Fulfills Fulfills s)) = Resolver.resolve (closeFulfiller s).
Proof. destruct s; split; reflexivity. Qed.

(** The cancel of the read half fails: the error handler delivers the failure
    to the closed signal and the promise of [close] fulfils. *)
Lemma close_cancel_rejects (s : Socket) (exc : JsValue) (abortSettles : Outcome) :
  fst (close (Rejects exc) abortSettles s) = inr Fulfills
  /\ closeFulfiller (snd (close (Rejects exc) abortSettles s))
     = Resolver.reject (Tunneled exc) (closeFulfiller s).
Proof. destruct s; split; reflexivity. Qed.

(** [close] never throws, and it always requests the cancel and the abort. *)
Lemma close_requests_teardown (s : Socket) (cancelSettles abortSettles : Outcome) :
  exists p, fst (close cancelSettles abortSettles s) = inr p
            /\ cancelRequested (readable (snd (close cancelSettles abortSettles s))) = true
            /\ abortRequested (writable (snd (close cancelSettles abortSettles s))) = true.
Proof.
  destruct s, cancelSettles, abortSettles; eexists; repeat split; reflexivity.
Qed.

(** ** The proxy status handler stays attached until the status arrives *)

Lemma step_keeps_status_attached (e : Event) (s : Socket) :
  is_ProxyStatus e = false ->
  statusListener s = true -> statusListener (snd (step e s)) = true.
Proof.
  destruct s as [conn r w cf opts st sec dom cip eof sl peb pu].
  cbn [statusListener]. intros He ->.
  destruct e; try discriminate He; clear He; crush_socket.
Qed.

Lemma run_keeps_status_attached (events : list Event) :
  forall s,
    forallb (fun e => negb (is_ProxyStatus e)) events = true ->
    statusListener s = true -> statusListener (run events s) = true.
Proof.
  induction events as [|e events IH]; intros s Hev Hs; [exact Hs|].
  cbn [forallb] in Hev. apply andb_prop in Hev. destruct Hev as [He Hev].
  apply negb_true_iff in He.
  change (run (e :: events) s) with (run events (snd (step e s))).
  apply IH; [exact Hev | apply step_keeps_status_attached; assumption].
Qed.

Lemma connect_attaches_status_handler ctx address opts s :
  connectImplNoOutputLock ctx address opts = inr s -> statusListener s = true.
Proof.
  unfold connectImplNoOutputLock, andThen, require, HttpClient_connect.
  destruct (domain_of ctx address) as [e|dom]; [discriminate|].
  destruct (isValidHost (addressStr_of address)); [|discriminate].
  destruct (negb (isFiddle ctx)); [|discriminate].
  destruct (match opts with
            | Some o => _
            | None => _
            end) as [e|useTls]; [discriminate|].
  cbv beta iota zeta.
  match goal with
  | |- context [setupSocket ?c ?o ?st ?sec ?d] =>
      destruct (setupSocket_succeeds c o st sec d) as (s0 & -> & _)
  end.
  destruct s0. unfold handleProxyStatus, modify, set_statusListener.
  intros [= <-]. reflexivity.
Qed.

(** ** C1: the closed signal is resolved at most once *)

(** C1.  In every execution of a socket, the first resolution of the closed
    signal wins: on a pending signal [resolveFulfiller] settles it as asked
    (success without an error, the failure otherwise); once the signal is
    settled no later event (close, write disconnect, proxy status, error body,
    read EOF, upgrade) changes it; and a later attempt is never an error:
    [resolveFulfiller] does not throw, and what an event returns or throws is
    the same whatever the state of the closed signal. *)
Theorem closedSignal_first_resolution_wins :
  forall (s : Socket) (before after : list Event),
    (forall maybeErr,
        closeFulfiller s = Pending ->
        closeFulfiller (snd (resolveFulfiller maybeErr s))
        = match maybeErr with
          | Some err => Rejected err
          | None => Resolved
          end)
    /\ (settled (closeFulfiller (run before s)) = true ->
        closeFulfiller (run (before ++ after) s) = closeFulfiller (run before s))
    /\ (forall maybeErr, fst (resolveFulfiller maybeErr s) = inr tt)
    /\ (forall e p, fst (step e (set_closeFulfiller p s)) = fst (step e s)).
Proof.
  intros s before after. repeat split.
  - intros [err|] Hp; destruct s; cbn in *; rewrite Hp; reflexivity.
  - intros Hs. rewrite run_app. apply run_keeps_settled, Hs.
  - intros [err|]; reflexivity.
  - intros e p. apply step_result_ignores_closed.
Qed.

Lemma closedSignal_first_resolution_wins_witness :
  closeFulfiller
    (run ([CallClose Fulfills Fulfills]
          ++ [WriteDisconnected;
              ProxyStatus (mkStatus 503 None None) heap0;
              ReadableEof false (Rejects "write failed");
              CallClose (Rejects "cancel failed") Fulfills])
       socket0)
  = Resolved.
Proof.
  exact (proj1 (proj2 (closedSignal_first_resolution_wins socket0
                         [CallClose Fulfills Fulfills]
                         [WriteDisconnected;
                          ProxyStatus (mkStatus 503 None None) heap0;
                          ReadableEof false (Rejects "write failed");
                          CallClose (Rejects "cancel failed") Fulfills]))
           eq_refl).
Defined.

(** ** C2: a failed abort escapes the error handler of close *)

(** C2.  When the cancel of the read half succeeds and the abort of the write
    half fails, the failure is not delivered to the closed signal: the
    promise returned by [close] rejects with it and the closed signal is left
    as it was.  (The error continuation of the two-argument [then] sees a
    rejection of the cancel promise only.) *)
Theorem close_abort_failure_escapes :
  forall (s : Socket) (exc : JsValue),
    fst (close Fulfills (Rejects exc) s) = inr (Rejects exc)
    /\ closeFulfiller (snd (close Fulfills (Rejects exc) s)) = closeFulfiller s.
Proof. intros s exc. destruct s; split; reflexivity. Qed.

(** ** C3: the error body of a 403 *)





Lemma length_append (a b : string) :
  String.length (a ++ b) = (String.length a + String.length b)%nat.
Proof. induction a as [|c a IH]; cbn; [reflexivity | rewrite IH; reflexivity]. Qed.






(** When the allocator refuses the buffer (as it must for a declared length
    of 2^63 - 1, and for a negative one, which becomes a huge [size_t]), the
    handler throws after it has set [closureInProgress]: no read is
    scheduled, the generic path does not run and the closed signal stays
    pending. *)
Example proxy_403_allocation_fails :
  step (ProxyStatus status_403_max heap0) socket0
  = (inl AllocationFailed, set_closureInProgress true (set_statusListener false socket0))
  /\ step (ProxyStatus status_403_negative heap0) socket0
     = (inl AllocationFailed,
        set_closureInProgress true (set_statusListener false socket0)).
Proof. split; vm_compute; reflexivity. Qed.

(** ** C4: the cases of the proxy status handler *)

(** C4.  [connect] attaches the proxy status handler to the socket it
    builds, and the handler stays attached until the tunnel status arrives.
    When it arrives with [200 <= code < 300] the handler takes no action.  On
    any other status it enters the error-body branch exactly when the code is
    403, an error body is there and the Content-Length parses; in that
    branch the generic path does not run (the closed signal and both halves
    are untouched), whether the read gets scheduled or the allocation of its
    buffer throws; in every other case the handler does not throw, rejects
    the closed signal with the generic proxy failure, cancels the read half
    and aborts the write half. *)
Theorem proxy_status_cases :
  (forall ctx address opts s0 (events : list Event),
      connectImplNoOutputLock ctx address opts = inr s0 ->
      forallb (fun e => negb (is_ProxyStatus e)) events = true ->
      statusListener (run events s0) = true)
  /\ (forall (status : Status) (heap : Heap) (s : Socket),
        statusListener s = true ->
        if (200 <=? statusCode status)%N && (statusCode status <? 300)%N
        then step (ProxyStatus status heap) s = (inr VUnit, set_statusListener false s)
        else
          closureInProgress (snd (step (ProxyStatus status heap) s))
          = (statusCode status =? 403)%N
            && isSome (errorBody status)
            && isSome (maybeSize status)
          /\ if closureInProgress (snd (step (ProxyStatus status heap) s))
             then
               closeFulfiller (snd (step (ProxyStatus status heap) s)) = closeFulfiller s
               /\ readable (snd (step (ProxyStatus status heap) s)) = readable s
               /\ writable (snd (step (ProxyStatus status heap) s)) = writable s
               /\ ((fst (step (ProxyStatus status heap) s) = inr VUnit
                    /\ exists rd,
                         pendingErrorBody (snd (step (ProxyStatus status heap) s))
                         = Some rd)
                   \/ (fst (step (ProxyStatus status heap) s) = inl AllocationFailed
                       /\ pendingErrorBody (snd (step (ProxyStatus status heap) s))
                          = pendingErrorBody s))
             else
               fst (step (ProxyStatus status heap) s) = inr VUnit
               /\ closeFulfiller (snd (step (ProxyStatus status heap) s))
                  = Resolver.reject (KjException "jsg.Error: proxy request failed")
                      (closeFulfiller s)
               /\ cancelRequested (readable (snd (step (ProxyStatus status heap) s))) = true
               /\ abortRequested (writable (snd (step (ProxyStatus status heap) s))) = true
               /\ pendingErrorBody (snd (step (ProxyStatus status heap) s))
                  = pendingErrorBody s).
Proof.
  split.
  - intros ctx address opts s0 events Hc Hev.
    apply run_keeps_status_attached; [exact Hev|].
    eapply connect_attaches_status_handler; eassumption.
  - intros [code cl body] heap s Hsl.
    destruct s as [conn r w cf opts st sec dom cip eof sl peb pu].
    cbn [statusListener] in Hsl. subst sl.
    cbn [statusCode errorBody].
    set (size := maybeSize (mkStatus code cl body)).
    unfold_socket. cbn [statusCode errorBody]. fold size.
    destruct (N.ltb_spec code 200), (N.leb_spec 300 code),
             (N.leb_spec 200 code), (N.ltb_spec code 300); try lia;
      cbn [orb andb]; unfold_socket;
      try reflexivity;
      destruct (code =? 403)%N; unfold_socket;
      try destruct body; unfold_socket;
      try destruct size; unfold_socket;
      try (destruct (allocates heap _); unfold_socket);
      cbn [andb isSome]; repeat split; try reflexivity;
      try (left; split; [reflexivity | eexists; reflexivity]);
      try (right; split; reflexivity).
Qed.

Lemma proxy_status_cases_witness :
  step (ProxyStatus (mkStatus 204 None None) heap0) socket0
  = (inr VUnit, set_statusListener false socket0).
Proof.
  exact (proj2 proxy_status_cases (mkStatus 204 None None) heap0 socket0 eq_refl).
Defined.

(** ** C5: the old socket after startTls *)

(** C5, as the code has it.  When [startTls] returns the new socket, the old
    socket's closed signal and read half are as they were, and the
    continuation of the flush is pending.  When the flush of the write half
    then fulfils, the continuation removes the sink of the write half,
    detaches the read half, after which every read yields EOF, and resolves
    the old socket's closed signal (a signal already settled stays as it is).
    When the flush rejects, the old socket's closed signal and read half
    stay as they were. *)
Theorem startTls_closes_old_socket_after_flush :
  forall (s : Socket) (tlsOptions : option TlsOptions) (new s' : Socket),
    startTls tlsOptions s = (inr new, s') ->
    closeFulfiller s' = closeFulfiller s
    /\ readable s' = readable s
    /\ closeFulfiller (snd (onFlushSettled Fulfills s')) = Resolver.resolve (closeFulfiller s)
    /\ sinkRemoved (writable (snd (onFlushSettled Fulfills s'))) = true
    /\ (forall delivered,
          ReadableStream_read (readable (snd (onFlushSettled Fulfills s'))) delivered
          = ReadEof)
    /\ (forall exc,
          closeFulfiller (snd (onFlushSettled (Rejects exc) s')) = closeFulfiller s
          /\ readable (snd (onFlushSettled (Rejects exc) s')) = readable s)
    /\ snd (onFlushSettled NeverSettles s') = s'.
Proof.
  intros s tlsOptions new s' Hup.
  apply startTls_inv in Hup.
  destruct Hup as (_ & _ & _ & _ & Hcf & Hr & _ & _ & Hpu & _).
  destruct s' as [conn' r' w' cf' opts' st' sec' dom' cip' eof' sl' peb' pu'].
  cbn [closeFulfiller readable pendingUpgrade] in Hcf, Hr, Hpu. subst cf' r' pu'.
  repeat split; try intros x; unfold ReadableStream_read; unfold_socket;
    repeat (break_inner; unfold_socket); reflexivity.
Qed.

Lemma startTls_closes_old_socket_after_flush_witness :
  closeFulfiller (snd (onFlushSettled Fulfills socket0_after_startTls)) = Resolved
  /\ ReadableStream_read
       (readable (snd (onFlushSettled Fulfills socket0_after_startTls)))
       (ReadBytes "220 ready")
     = ReadEof.
Proof.
  pose proof (startTls_closes_old_socket_after_flush socket0 None
                socket0_upgraded socket0_after_startTls eq_refl)
    as (_ & _ & Hcf & _ & Hread & _).
  split; [exact Hcf | exact (Hread (ReadBytes "220 ready"))].
Defined.

(** C5 as the spec states it fails: when [startTls] returns the new socket,
    the old socket's closed signal is still pending and its read half still
    delivers data. *)
Lemma startTls_returns_before_old_socket_closes :
  startTls None socket0 = (inr socket0_upgraded, socket0_after_startTls)
  /\ closeFulfiller socket0_after_startTls = Pending
  /\ ReadableStream_read (readable socket0_after_startTls) (ReadBytes "220 ready")
     = ReadBytes "220 ready".
Proof. repeat split; reflexivity. Qed.

(** ** C6: the preconditions of startTls *)

Lemma parseSecureTransport_error (o : SocketOptions) (e : Exn) :
  parseSecureTransport o = inl e -> exists message, e = TypeError message.
Proof.
  unfold parseSecureTransport.
  destruct (secureTransport o) as [v|]; [|discriminate].
  cbv zeta.
  destruct (String.eqb (c_str v) "off"); [discriminate|].
  destruct (String.eqb (c_str v) "starttls"); [discriminate|].
  destruct (String.eqb (c_str v) "on"); [discriminate|].
  intros [= <-]. eexists; reflexivity.
Qed.

(** C6.  On every reachable socket, [startTls] throws a [TypeError] and leaves
    the socket exactly as it was whenever a precondition is violated: the
    socket is secure, its domain has been given away by an earlier upgrade,
    the upgrade callback is absent, or the [secureTransport] option is not
    [starttls].  In particular the socket returned by a successful [startTls]
    is secure, and [startTls] on it fails this way. *)
Theorem startTls_precondition_violation :
  (forall (s : Socket) (tlsOptions : option TlsOptions),
      reachable s ->
      precondition_violated s = true ->
      exists message, startTls tlsOptions s = (inl (TypeError message), s))
  /\ (forall (s : Socket) (tlsOptions : option TlsOptions) (new s' : Socket),
        startTls tlsOptions s = (inr new, s') ->
        isSecureSocket new = true
        /\ forall tlsOptions',
             exists message, startTls tlsOptions' new = (inl (TypeError message), new)).
Proof.
  assert (Hsecure : forall s t, isSecureSocket s = true ->
            exists message, startTls t s = (inl (TypeError message), s)).
  { intros s t Hs. destruct s as [conn r w cf opts st sec dom cip eof sl peb pu].
    cbn [isSecureSocket] in Hs. subst sec. eexists; reflexivity. }
  split.
  - intros s tlsOptions Hr Hv.
    apply reachable_ok in Hr.
    destruct (isSecureSocket s) eqn:Hsec; [apply Hsecure; exact Hsec|].
    destruct s as [conn r w cf opts st sec dom cip eof sl peb pu].
    unfold Socket_ok in Hr. unfold precondition_violated in Hv.
    cbn [isSecureSocket domain eofListener options] in *. subst sec.
    unfold_socket.
    destruct (String.eqb dom "") eqn:Hdom; [eexists; reflexivity|].
    cbn [negb] in *. unfold_socket.
    apply andb_prop in Hr. destruct Hr as [_ Hr].
    rewrite !orb_false_r in Hr. rewrite Hr in Hv. cbn [negb orb] in Hv.
    unfold mode_is_starttls in Hv. cbn [options] in Hv.
    destruct opts as [o|]; [|eexists; reflexivity].
    destruct (parseSecureTransport o) as [e|kind] eqn:Hparse.
    + destruct (parseSecureTransport_error o e Hparse) as [message ->].
      eexists; reflexivity.
    + unfold_socket. destruct (SecureTransportKind_eqb kind STARTTLS);
        [discriminate Hv | eexists; reflexivity].
  - intros s tlsOptions new s' Hup.
    destruct (startTls_new_ok _ _ _ _ Hup) as [_ Hsec].
    split; [exact Hsec|]. intros t'. apply Hsecure, Hsec.
Qed.

Lemma startTls_precondition_violation_witness :
  exists message,
    startTls None (snd (startTls None socket0))
    = (inl (TypeError message), snd (startTls None socket0)).
Proof.
  exact (proj1 startTls_precondition_violation (snd (startTls None socket0)) None
           (reachable_step (CallStartTls None) socket0
              (reachable_connect _ _ _ _ connect_socket0))
           eq_refl).
Defined.

(** ** C7: what connect validates *)

Lemma host_char_alphabet (c : ascii) : host_char c = in_host_alphabet c.
Proof.
  destruct c as [b0 b1 b2 b3 b4 b5 b6 b7].
  destruct b0, b1, b2, b3, b4, b5, b6, b7; vm_compute; reflexivity.
Qed.

Lemma host_chars_forallb (host : string) :
  host_chars host = forallb in_host_alphabet (list_ascii_of_string host).
Proof.
  induction host as [|c rest IH]; [reflexivity|].
  cbn [host_chars list_ascii_of_string forallb].
  rewrite host_char_alphabet, IH.
  destruct (in_host_alphabet c); reflexivity.
Qed.

(** [isValidHost] accepts exactly the texts of 1 to 255 characters, all of
    them in the alphabet. *)
Lemma isValidHost_spec (host : string) :
  isValidHost host
  = (1 <=? String.length host)%nat && (String.length host <=? 255)%nat
    && forallb in_host_alphabet (list_ascii_of_string host).
Proof.
  unfold isValidHost. rewrite host_chars_forallb.
  destruct (Nat.ltb_spec 255 (String.length host)),
           (Nat.eqb_spec (String.length host) 0),
           (Nat.leb_spec 1 (String.length host)),
           (Nat.leb_spec (String.length host) 255); try lia; reflexivity.
Qed.

(** Every failure of [connect] before the socket is set up is a
    [TypeError]. *)
Lemma connect_rejects_invalid ctx address opts :
  isValidHost (addressStr_of address) = false ->
  exists message, connectImplNoOutputLock ctx address opts = inl (TypeError message).
Proof.
  intros Hbad. unfold connectImplNoOutputLock, andThen, require.
  destruct (domain_of ctx address) as [e|dom] eqn:Hdom.
  - unfold domain_of in Hdom. destruct address as [str|hostname port]; [|discriminate].
    destruct (URL_host ctx ("https://" ++ str)) as [[host|]|];
      [discriminate | | ]; injection Hdom as <-; eexists; reflexivity.
  - rewrite Hbad. eexists; reflexivity.
Qed.

Lemma connect_accepts_valid ctx address opts s :
  connectImplNoOutputLock ctx address opts = inr s ->
  isValidHost (addressStr_of address) = true.
Proof.
  intros Hok.
  destruct (isValidHost (addressStr_of address)) eqn:Hv; [reflexivity|].
  destruct (connect_rejects_invalid ctx address opts Hv) as [message Hfail].
  rewrite Hfail in Hok. discriminate.
Qed.

(** C7, as the code has it.  The validator is applied to the address string
    handed to the transport: the string itself, or [hostname:port] for a
    structured address.  Every address [connect] accepts has an address
    string of 1 to 255 characters, all in the alphabet; every address whose
    address string is empty, longer than 255 characters or has a character
    outside the alphabet fails with a [TypeError]. *)
Theorem connect_validates_address_string :
  forall (ctx : Context) (address : AnySocketAddress) (opts : option SocketOptions),
    (forall s,
        connectImplNoOutputLock ctx address opts = inr s ->
        (1 <= String.length (addressStr_of address) <= 255)%nat
        /\ forallb in_host_alphabet (list_ascii_of_string (addressStr_of address)) = true)
    /\ (String.length (addressStr_of address) = 0%nat
        \/ (255 < String.length (addressStr_of address))%nat
        \/ forallb in_host_alphabet (list_ascii_of_string (addressStr_of address)) = false ->
        exists message,
          connectImplNoOutputLock ctx address opts = inl (TypeError message)).
Proof.
  intros ctx address opts. split.
  - intros s Hok. apply connect_accepts_valid in Hok.
    rewrite isValidHost_spec in Hok.
    apply andb_prop in Hok. destruct Hok as [Hlen Hchars].
    apply andb_prop in Hlen. destruct Hlen as [Hlo Hhi].
    apply Nat.leb_le in Hlo, Hhi. repeat split; assumption.
  - intros Hbad. apply connect_rejects_invalid. rewrite isValidHost_spec.
    destruct Hbad as [H0 | [Hlong | Hchar]].
    + rewrite H0. reflexivity.
    + apply Nat.leb_gt in Hlong. rewrite Hlong, andb_false_r. reflexivity.
    + rewrite Hchar, andb_false_r. reflexivity.
Qed.

Lemma connect_validates_address_string_witness :
  ((1 <= String.length "mail.example.com:25" <= 255)%nat
   /\ forallb in_host_alphabet (list_ascii_of_string "mail.example.com:25") = true)
  /\ (exists message,
        connectImplNoOutputLock ctx0 (AddressString a256) None = inl (TypeError message))
  /\ (exists message,
        connectImplNoOutputLock ctx0 (AddressString "") None = inl (TypeError message)).
Proof.
  split; [|split].
  - exact (proj1 (connect_validates_address_string ctx0
                    (AddressRecord "mail.example.com" 25) (Some starttls_options))
             socket0 connect_socket0).
  - apply (proj2 (connect_validates_address_string ctx0 (AddressString a256) None)).
    right; left. vm_compute. lia.
  - apply (proj2 (connect_validates_address_string ctx0 (AddressString "") None)).
    left. reflexivity.
Defined.

(** C7 as the spec states it fails: [connect] accepts the structured address
    with an empty host name and port 80, since the address string [:80]
    passes the validator; the host name of the socket it builds is empty and
    does not pass. *)
Lemma connect_accepts_empty_hostname :
  connectImplNoOutputLock ctx0 (AddressRecord "" 80) None = inr socket_nohost
  /\ domain socket_nohost = ""
  /\ isValidHost (domain socket_nohost) = false.
Proof. repeat split; vm_compute; reflexivity. Qed.

(** ** C8: read EOF closes the write half *)

(** While the EOF continuation is attached, the read half reaching EOF runs
    [maybeCloseWriteSide], once. *)
Lemma step_eof_attached (s : Socket) (isClosedOrClosing : bool) (closeSettles : Outcome) :
  eofListener s = true ->
  snd (step (ReadableEof isClosedOrClosing closeSettles) s)
  = snd (maybeCloseWriteSide isClosedOrClosing closeSettles (set_eofListener false s)).
Proof.
  destruct s as [conn r w cf opts st sec dom cip eof sl peb pu].
  cbn [eofListener]. intros ->. crush_socket.
Qed.

Lemma step_keeps_eof_attached (e : Event) (s : Socket) :
  is_ReadableEof e = false ->
  eofListener s = true -> eofListener (snd (step e s)) = true.
Proof.
  destruct s as [conn r w cf opts st sec dom cip eof sl peb pu].
  cbn [eofListener]. intros He ->.
  destruct e; try discriminate He; clear He; crush_socket.
Qed.

Lemma step_keeps_halfOpen_off (e : Event) (s : Socket) :
  getAllowHalfOpen (options s) = false ->
  getAllowHalfOpen (options (snd (step e s))) = false.
Proof.
  destruct s as [conn r w cf opts st sec dom cip eof sl peb pu].
  cbn [options]. intros Hopts.
  destruct e; unfold_socket; repeat (break_inner; unfold_socket);
    try reflexivity; exact Hopts.
Qed.

Lemma run_keeps_eof_attached (events : list Event) :
  forall s,
    forallb (fun e => negb (is_ReadableEof e)) events = true ->
    eofListener s = true ->
    getAllowHalfOpen (options s) = false ->
    eofListener (run events s) = true
    /\ getAllowHalfOpen (options (run events s)) = false.
Proof.
  induction events as [|e events IH]; intros s Hev Hs Hopts; [split; assumption|].
  cbn [forallb] in Hev. apply andb_prop in Hev. destruct Hev as [He Hev].
  apply negb_true_iff in He.
  change (run (e :: events) s) with (run events (snd (step e s))).
  apply IH; [exact Hev | apply step_keeps_eof_attached; assumption
            | apply step_keeps_halfOpen_off; assumption].
Qed.

Lemma connect_attaches_eof_handler ctx address opts s :
  connectImplNoOutputLock ctx address opts = inr s ->
  eofListener s = negb (getAllowHalfOpen opts) /\ options s = opts.
Proof.
  unfold connectImplNoOutputLock, andThen, require, HttpClient_connect.
  destruct (domain_of ctx address) as [e|dom]; [discriminate|].
  destruct (isValidHost (addressStr_of address)); [|discriminate].
  destruct (negb (isFiddle ctx)); [|discriminate].
  destruct (match opts with
            | Some o => _
            | None => _
            end) as [e|useTls]; [discriminate|].
  cbv beta iota zeta.
  match goal with
  | |- context [setupSocket ?c ?o ?st ?sec ?d] =>
      destruct (setupSocket_succeeds c o st sec d) as (s0 & -> & Heof & Hopts & _)
  end.
  destruct s0. unfold handleProxyStatus, modify, set_statusListener.
  cbn in Heof, Hopts. intros [= <-]. cbn. split; assumption.
Qed.

(** C8.  A socket built by [setupSocket], and so by [connect], with options
    that do not allow half-open operation has the EOF continuation attached,
    and it stays attached until the read half reaches EOF.  When it does,
    the handler does nothing when the write half is closed or closing;
    otherwise it asks the controller to close the write half, and it resolves
    the closed signal when the close succeeds and rejects it with the failure
    of the close when the close fails (the resolution that follows the
    rejection is ignored).  While the close is pending the closed signal is
    left alone. *)
Theorem eof_closes_write_side :
  (forall conn opts starter sec dom s0,
      getAllowHalfOpen opts = false ->
      setupSocket conn opts starter sec dom = inr s0 ->
      eofListener s0 = true /\ getAllowHalfOpen (options s0) = false)
  /\ (forall ctx address opts s0,
        getAllowHalfOpen opts = false ->
        connectImplNoOutputLock ctx address opts = inr s0 ->
        eofListener s0 = true /\ getAllowHalfOpen (options s0) = false)
  /\ (forall (s0 : Socket) (events : list Event),
        eofListener s0 = true ->
        getAllowHalfOpen (options s0) = false ->
        forallb (fun e => negb (is_ReadableEof e)) events = true ->
        (forall closeSettles,
            step (ReadableEof true closeSettles) (run events s0)
            = (inr (VPromise Fulfills), set_eofListener false (run events s0)))
        /\ (forall closeSettles,
              closeRequested
                (writable (snd (step (ReadableEof false closeSettles) (run events s0))))
              = true)
        /\ fst (step (ReadableEof false Fulfills) (run events s0)) = inr (VPromise Fulfills)
        /\ closeFulfiller (snd (step (ReadableEof false Fulfills) (run events s0)))
           = Resolver.resolve (closeFulfiller (run events s0))
        /\ (forall exc,
              fst (step (ReadableEof false (Rejects exc)) (run events s0))
              = inr (VPromise Fulfills)
              /\ closeFulfiller (snd (step (ReadableEof false (Rejects exc)) (run events s0)))
                 = Resolver.reject (JsHandle exc) (closeFulfiller (run events s0)))
        /\ closeFulfiller (snd (step (ReadableEof false NeverSettles) (run events s0)))
           = closeFulfiller (run events s0)).
Proof.
  split; [|split].
  - intros conn opts starter sec dom s0 Hopts Hs0.
    destruct (setupSocket_succeeds conn opts starter sec dom)
      as (s & Hs & Heof & Ho & _).
    rewrite Hs in Hs0. injection Hs0 as <-.
    rewrite Heof, Ho, Hopts. split; reflexivity.
  - intros ctx address opts s0 Hopts Hc.
    apply connect_attaches_eof_handler in Hc. destruct Hc as [Heof Ho].
    rewrite Heof, Ho, Hopts. split; reflexivity.
  - intros s0 events Heof Hopts Hev.
    destruct (run_keeps_eof_attached events s0 Hev Heof Hopts) as [Heof' Hopts'].
    destruct (run events s0) as [conn r w cf opts st sec dom cip eof sl peb pu].
    cbn [eofListener options] in Heof', Hopts'. subst eof.
    repeat split; try intros x; unfold_socket;
      cbv delta [getAllowHalfOpen] in Hopts'; cbv beta in Hopts'; rewrite Hopts';
      unfold_socket; try destruct x; try destruct cf; reflexivity.
Qed.

Lemma eof_closes_write_side_witness :
  closeFulfiller
    (snd (step (ReadableEof false Fulfills)
            (run [ProxyStatus (mkStatus 204 None None) heap0] socket0)))
  = Resolved
  /\ closeFulfiller
       (snd (step (ReadableEof false (Rejects "broken pipe"))
               (run [ProxyStatus (mkStatus 204 None None) heap0] socket0)))
     = Rejected (JsHandle "broken pipe").
Proof.
  pose proof (proj2 (proj2 eof_closes_write_side) socket0
                [ProxyStatus (mkStatus 204 None None) heap0] eq_refl eq_refl eq_refl)
    as (_ & _ & _ & Hok & Hfail & _).
  split; [exact Hok | exact (proj2 (Hfail "broken pipe"))].
Defined.

(** ** C9: with allowHalfOpen, read EOF does nothing *)

(** C9.  [setupSocket] does not attach the EOF continuation to a socket built
    with [allowHalfOpen = true].  On every reachable socket whose options
    allow half-open operation the continuation is not attached, no later
    event attaches it, and so at any point of any execution of such a socket
    the read half reaching EOF leaves the socket, its write half and its
    closed signal as they are. *)
Theorem halfOpen_socket_ignores_eof :
  (forall conn opts starter sec dom s0,
      allowHalfOpen opts = true ->
      setupSocket conn (Some opts) starter sec dom = inr s0 ->
      eofListener s0 = false)
  /\ (forall s,
        reachable s ->
        getAllowHalfOpen (options s) = true ->
        eofListener s = false
        /\ forall (events : list Event) (isClosedOrClosing : bool) (closeSettles : Outcome),
             step (ReadableEof isClosedOrClosing closeSettles) (run events s)
             = (inr VUnit, run events s)).
Proof.
  split.
  - intros conn opts starter sec dom s0 Hopts Hs0.
    destruct (setupSocket_succeeds conn (Some opts) starter sec dom)
      as (s & Hs & Heof & _).
    rewrite Hs in Hs0. injection Hs0 as <-.
    rewrite Heof. cbn. rewrite Hopts. reflexivity.
  - intros s Hr Hopts.
    assert (Heof : eofListener s = false).
    { apply reachable_ok in Hr. unfold Socket_ok in Hr.
      apply andb_prop in Hr. destruct Hr as [Hr _].
      rewrite Hopts in Hr. destruct (eofListener s); [discriminate Hr | reflexivity]. }
    split; [exact Heof|].
    intros events cc closeSettles.
    pose proof (run_keeps_eof_unattached events s Heof) as Hrun.
    destruct (run events s) as [c r w cf o st sc d cip eof sl peb pu].
    cbn [eofListener] in Hrun. subst eof. reflexivity.
Qed.

Lemma halfOpen_socket_ignores_eof_witness :
  step (ReadableEof false Fulfills)
    (run [ProxyStatus (mkStatus 200 None None) heap0; WriteDisconnected] socket_halfopen)
  = (inr VUnit,
     run [ProxyStatus (mkStatus 200 None None) heap0; WriteDisconnected] socket_halfopen).
Proof.
  exact (proj2 (proj2 halfOpen_socket_ignores_eof socket_halfopen
                  (reachable_connect _ _ _ _ connect_socket_halfopen) eq_refl)
           [ProxyStatus (mkStatus 200 None None) heap0; WriteDisconnected] false Fulfills).
Defined.

(** ** C10: the allowHalfOpen assertions never fire *)

(** C10.  The assertion in [handleReadableEof] never fires: [setupSocket],
    its only caller, always succeeds.  The assertion in [maybeCloseWriteSide]
    never fires either: on every reachable socket the EOF continuation is
    attached only while the options do not allow half-open operation, and the
    read half reaching EOF never throws. *)
Theorem allowHalfOpen_assertions_never_fire :
  (forall conn opts starter sec dom,
      exists s, setupSocket conn opts starter sec dom = inr s)
  /\ (forall s, reachable s ->
        (eofListener s = true -> getAllowHalfOpen (options s) = false)
        /\ forall isClosedOrClosing closeSettles,
             exists v, fst (step (ReadableEof isClosedOrClosing closeSettles) s) = inr v).
Proof.
  split.
  - intros conn opts starter sec dom.
    destruct (setupSocket_succeeds conn opts starter sec dom) as (s & Hs & _).
    exists s. exact Hs.
  - intros s Hr. apply reachable_ok in Hr.
    destruct s as [conn r w cf opts st sec dom cip eof sl peb pu].
    unfold Socket_ok in Hr. cbn [eofListener options] in *.
    apply andb_prop in Hr. destruct Hr as [Hr _].
    destruct eof; cbn in Hr.
    + apply negb_true_iff in Hr. split; [intros _; exact Hr|].
      intros cc closeSettles. unfold_socket.
      cbv delta [getAllowHalfOpen] in Hr; cbv beta in Hr. rewrite Hr.
      destruct cc; [eexists; reflexivity|].
      destruct closeSettles; eexists; reflexivity.
    + split; [discriminate|]. intros cc closeSettles. eexists; reflexivity.
Qed.

Lemma allowHalfOpen_assertions_never_fire_witness :
  exists v, fst (step (ReadableEof false (Rejects "broken pipe")) socket0) = inr v.
Proof.
  exact (proj2 (proj2 allowHalfOpen_assertions_never_fire socket0
                  (reachable_connect _ _ _ _ connect_socket0))
           false (Rejects "broken pipe")).
Defined.

(** * Further properties of the socket code *)

(** ** Members that never change *)

Lemma step_keeps_isSecureSocket (e : Event) (s : Socket) :
  isSecureSocket (snd (step e s)) = isSecureSocket s.
Proof.
  destruct s as [conn r w cf opts st sec dom cip eof sl peb pu].
  destruct e; crush_socket.
Qed.

Lemma run_keeps_isSecureSocket (events : list Event) :
  forall s, isSecureSocket (run events s) = isSecureSocket s.
Proof.
  induction events as [|e events IH]; intros s; [reflexivity|].
  change (run (e :: events) s) with (run events (snd (step e s))).
  rewrite IH. apply step_keeps_isSecureSocket.
Qed.

Lemma step_keeps_domain_empty (e : Event) (s : Socket) :
  domain s = "" -> domain (snd (step e s)) = "".
Proof.
  destruct s as [conn r w cf opts st sec dom cip eof sl peb pu].
  cbn [domain]. intros ->.
  destruct e; crush_socket.
Qed.

Lemma run_keeps_domain_empty (events : list Event) :
  forall s, domain s = "" -> domain (run events s) = "".
Proof.
  induction events as [|e events IH]; intros s Hs; [exact Hs|].
  change (run (e :: events) s) with (run events (snd (step e s))).
  apply IH, step_keeps_domain_empty, Hs.
Qed.

Lemma step_keeps_status_unattached (e : Event) (s : Socket) :
  statusListener s = false -> statusListener (snd (step e s)) = false.
Proof.
  destruct s as [conn r w cf opts st sec dom cip eof sl peb pu].
  cbn [statusListener]. intros ->.
  destruct e; crush_socket.
Qed.

Lemma run_keeps_status_unattached (events : list Event) :
  forall s, statusListener s = false -> statusListener (run events s) = false.
Proof.
  induction events as [|e events IH]; intros s Hs; [exact Hs|].
  change (run (e :: events) s) with (run events (snd (step e s))).
  apply IH, step_keeps_status_unattached, Hs.
Qed.

Lemma step_options (e : Event) (s : Socket) :
  options (snd (step e s)) = options s \/ options (snd (step e s)) = None.
Proof.
  destruct s as [conn r w cf opts st sec dom cip eof sl peb pu].
  destruct e; unfold_socket; repeat (break_inner; unfold_socket); auto.
Qed.

(** ** startTls: when it succeeds and what it returns *)

Lemma setupSocket_eq conn opts starter sec dom :
  setupSocket conn opts starter sec dom
  = inr (mkSocket conn newReadable newWritable Pending opts starter sec dom
           false (negb (getAllowHalfOpen opts)) false None None).
Proof.
  unfold setupSocket, handleReadableEof, bind, gets, KJ_ASSERT, modify, ret.
  cbn [options].
  destruct (getAllowHalfOpen opts); reflexivity.
Qed.

Lemma parseSecureTransport_starttls (o : SocketOptions) :
  (exists kind, parseSecureTransport o = inr kind
                /\ SecureTransportKind_eqb kind STARTTLS = true)
  <-> exists v, secureTransport o = Some v /\ c_str v = "starttls".
Proof.
  unfold parseSecureTransport. split.
  - intros (kind & Hparse & Hkind).
    destruct (secureTransport o) as [v|];
      [|injection Hparse as <-; discriminate Hkind].
    revert Hparse. cbv zeta.
    destruct (String.eqb (c_str v) "off"); [intros [= <-]; discriminate Hkind|].
    destruct (String.eqb_spec (c_str v) "starttls") as [Hv|_];
      [intros _; exists v; split; [reflexivity | exact Hv]|].
    destruct (String.eqb (c_str v) "on");
      [intros [= <-]; discriminate Hkind | discriminate].
  - intros (v & -> & Hv). cbv zeta. rewrite Hv. exists STARTTLS. split; reflexivity.
Qed.

Lemma startTls_returns_upgraded tlsOptions s new s' :
  startTls tlsOptions s = (inr new, s') -> new = upgraded s.
Proof.
  intros Hup. apply startTls_inv in Hup.
  destruct Hup as (_ & _ & _ & Hsetup & _).
  rewrite setupSocket_eq in Hsetup. injection Hsetup as <-. reflexivity.
Qed.

(** X1.  [startTls] succeeds exactly when the socket is not secure, its
    domain is not empty and its options carry a [secureTransport] that reads
    [starttls] as a C string (up to its first NUL; [STARTTLS] does not do);
    and then the socket it
    returns is always the same: secure, with a pending closed signal, fresh
    halves, the old socket's options and domain, an empty TLS starter, no
    proxy status handler, and the EOF continuation attached unless the
    options allow half-open operation. *)
Theorem startTls_succeeds_iff :
  forall (s : Socket) (tlsOptions : option TlsOptions),
    ((isSecureSocket s = false
      /\ String.eqb (domain s) "" = false
      /\ exists o v,
           options s = Some o /\ secureTransport o = Some v /\ c_str v = "starttls")
     <-> exists new s', startTls tlsOptions s = (inr new, s'))
    /\ (forall new s', startTls tlsOptions s = (inr new, s') -> new = upgraded s).
Proof.
  intros s tlsOptions.
  split; [split | apply startTls_returns_upgraded].
  - intros (Hsec & Hdom & o & v & Hopts & Hv & Hmode).
    destruct s as [conn r w cf opts st sec dom cip eof sl peb pu].
    cbn [isSecureSocket domain options] in *. subst sec opts.
    unfold_socket. rewrite Hdom. unfold_socket.
    destruct (proj2 (parseSecureTransport_starttls o) (ex_intro _ v (conj Hv Hmode)))
      as (kind & -> & Hkind).
    unfold_socket. rewrite Hkind. unfold_socket.
    destruct (allowHalfOpen o); do 2 eexists; reflexivity.
  - intros (new & s' & Hup). apply startTls_inv in Hup.
    destruct Hup as (Hsec & Hdom & Hmode & _).
    repeat split; try assumption.
    unfold mode_is_starttls in Hmode.
    destruct (options s) as [o|]; [|discriminate Hmode].
    assert (Hv : exists v, secureTransport o = Some v /\ c_str v = "starttls").
    { apply parseSecureTransport_starttls.
      destruct (parseSecureTransport o) as [e|kind]; [discriminate Hmode|].
      exists kind. split; [reflexivity | exact Hmode]. }
    destruct Hv as (v & Hv & Hc). exists o, v. repeat split; assumption.
Qed.

Lemma startTls_succeeds_iff_witness :
  exists new s', startTls None socket0 = (inr new, s').
Proof.
  apply (proj1 (proj1 (startTls_succeeds_iff socket0 None))).
  split; [reflexivity|]. split; [reflexivity|].
  exists starttls_options, "starttls". repeat split; reflexivity.
Defined.

Lemma step_startTls_snd (tlsOptions : option TlsOptions) (s : Socket) :
  snd (step (CallStartTls tlsOptions) s) = snd (startTls tlsOptions s).
Proof.
  unfold step, bind, ret.
  destruct (startTls tlsOptions s) as [[e|new] s']; reflexivity.
Qed.

(** X2.  A socket can be upgraded at most once: after a successful
    [startTls], whatever happens to the old socket afterwards, every further
    [startTls] on it throws [startTls can only be called once.] and changes
    nothing. *)
Theorem startTls_at_most_once :
  forall (s : Socket) (tlsOptions : option TlsOptions) (new s' : Socket),
    startTls tlsOptions s = (inr new, s') ->
    forall (events : list Event) (tlsOptions' : option TlsOptions),
      startTls tlsOptions' (run events s')
      = (inl (TypeError "startTls can only be called once."), run events s').
Proof.
  intros s tlsOptions new s' Hup events tlsOptions'.
  assert (Hsec : isSecureSocket (run events s') = false).
  { rewrite run_keeps_isSecureSocket.
    replace s' with (snd (step (CallStartTls tlsOptions) s))
      by (rewrite step_startTls_snd, Hup; reflexivity).
    rewrite step_keeps_isSecureSocket.
    apply startTls_inv in Hup. apply Hup. }
  apply startTls_inv in Hup.
  destruct Hup as (_ & _ & _ & _ & _ & _ & _ & _ & _ & _ & Hdom & _).
  pose proof (run_keeps_domain_empty events s' Hdom) as Hdom'.
  destruct (run events s') as [conn' r' w' cf' opts' st' sec' dom' cip' eof' sl' peb' pu'].
  cbn [domain isSecureSocket] in Hdom', Hsec. subst dom' sec'. reflexivity.
Qed.

Lemma startTls_at_most_once_witness :
  startTls None
    (run [FlushSettled Fulfills; CallClose Fulfills Fulfills] socket0_after_startTls)
  = (inl (TypeError "startTls can only be called once."),
     run [FlushSettled Fulfills; CallClose Fulfills Fulfills] socket0_after_startTls).
Proof.
  exact (startTls_at_most_once socket0 None socket0_upgraded socket0_after_startTls
           eq_refl [FlushSettled Fulfills; CallClose Fulfills Fulfills] None).
Defined.

(** X3.  A secure socket (one opened with [secureTransport = on], or one
    returned by [startTls]) can never be upgraded: at any point of any
    execution [startTls] on it throws [Cannot startTls on a TLS socket.] and
    changes nothing. *)
Theorem secure_socket_never_upgrades :
  forall (s : Socket),
    isSecureSocket s = true ->
    forall (events : list Event) (tlsOptions : option TlsOptions),
      startTls tlsOptions (run events s)
      = (inl (TypeError "Cannot startTls on a TLS socket."), run events s).
Proof.
  intros s Hsec events tlsOptions.
  rewrite <- (run_keeps_isSecureSocket events) in Hsec.
  destruct (run events s) as [conn r w cf opts st sec dom cip eof sl peb pu].
  cbn [isSecureSocket] in Hsec. subst sec. reflexivity.
Qed.

Lemma secure_socket_never_upgrades_witness :
  startTls None (run [ProxyStatus (mkStatus 200 None None) heap0] socket0_upgraded)
  = (inl (TypeError "Cannot startTls on a TLS socket."),
     run [ProxyStatus (mkStatus 200 None None) heap0] socket0_upgraded).
Proof.
  exact (secure_socket_never_upgrades socket0_upgraded eq_refl
           [ProxyStatus (mkStatus 200 None None) heap0] None).
Defined.

(** X4.  [startTls] does not look at the closed signal or at the stream
    halves: after any event other than a [startTls] call (a [close], a
    disconnect, a proxy rejection, a read EOF) it returns or throws exactly
    what it would have before the event.  In particular [startTls] on a
    socket that has been closed still returns a new socket (the source notes
    the missing check in a TODO). *)
Theorem startTls_ignores_closed_state :
  forall (s : Socket) (e : Event) (tlsOptions : option TlsOptions),
    is_CallStartTls e = false ->
    fst (startTls tlsOptions (snd (step e s))) = fst (startTls tlsOptions s).
Proof.
  intros s e tlsOptions He.
  destruct s as [conn r w cf opts st sec dom cip eof sl peb pu].
  destruct e; try discriminate He; clear He; crush_socket.
Qed.

Lemma startTls_ignores_closed_state_witness :
  fst (startTls None (snd (step (CallClose Fulfills Fulfills) socket0)))
  = inr socket0_upgraded.
Proof.
  exact (startTls_ignores_closed_state socket0 (CallClose Fulfills Fulfills) None eq_refl).
Defined.

(** X5.  Only [connect] attaches the proxy status handler: on the socket
    returned by [startTls] a tunnel status arriving at any point of any
    execution is ignored. *)
Theorem upgraded_socket_ignores_proxy_status :
  forall (s : Socket) (tlsOptions : option TlsOptions) (new s' : Socket),
    startTls tlsOptions s = (inr new, s') ->
    forall (events : list Event) (status : Status) (heap : Heap),
      step (ProxyStatus status heap) (run events new) = (inr VUnit, run events new).
Proof.
  intros s tlsOptions new s' Hup events status heap.
  apply startTls_returns_upgraded in Hup. subst new.
  pose proof (run_keeps_status_unattached events (upgraded s) eq_refl) as Hrun.
  destruct (run events (upgraded s)) as [c r w cf o st sc d cip eof sl peb pu].
  cbn [statusListener] in Hrun. subst sl. reflexivity.
Qed.

Lemma upgraded_socket_ignores_proxy_status_witness :
  step (ProxyStatus (mkStatus 503 None None) heap0) (run [WriteDisconnected] socket0_upgraded)
  = (inr VUnit, run [WriteDisconnected] socket0_upgraded).
Proof.
  exact (upgraded_socket_ignores_proxy_status socket0 None socket0_upgraded
           socket0_after_startTls eq_refl [WriteDisconnected]
           (mkStatus 503 None None) heap0).
Defined.

(** ** The continuation of the flush *)

Lemma step_keeps_pendingUpgrade (e : Event) (s : Socket) :
  is_FlushSettled e = false ->
  domain s = "" ->
  pendingUpgrade (snd (step e s)) = pendingUpgrade s.
Proof.
  destruct s as [conn r w cf opts st sec dom cip eof sl peb pu].
  cbn [domain]. intros He ->.
  destruct e; try discriminate He; clear He; crush_socket.
Qed.

Lemma run_keeps_pendingUpgrade (events : list Event) :
  forall s,
    forallb (fun e => negb (is_FlushSettled e)) events = true ->
    domain s = "" ->
    pendingUpgrade (run events s) = pendingUpgrade s.
Proof.
  induction events as [|e events IH]; intros s Hev Hdom; [reflexivity|].
  cbn [forallb] in Hev. apply andb_prop in Hev. destruct Hev as [He Hev].
  apply negb_true_iff in He.
  change (run (e :: events) s) with (run events (snd (step e s))).
  rewrite IH; [apply step_keeps_pendingUpgrade | | apply step_keeps_domain_empty];
    assumption.
Qed.

(** X6.  On a reachable socket the TLS starter is there whenever [startTls]
    succeeds, so the assertion in the flush continuation never fires: when the
    flush fulfils, however many other events came first, the continuation
    calls the starter with [expectedServerHostname] when the caller gave one
    and with the socket's original domain otherwise, although the socket's
    own [domain] member was emptied when [startTls] returned. *)
Theorem upgrade_calls_starter_with_expected_hostname :
  forall (s : Socket) (tlsOptions : option TlsOptions) (new s' : Socket),
    reachable s ->
    startTls tlsOptions s = (inr new, s') ->
    domain s' = ""
    /\ forall (events : list Event),
         forallb (fun e => negb (is_FlushSettled e)) events = true ->
         fst (onFlushSettled Fulfills (run events s'))
         = inr (Some (acceptedHostname_of tlsOptions (domain s))).
Proof.
  intros s tlsOptions new s' Hr Hup.
  apply reachable_ok in Hr. apply startTls_inv in Hup.
  destruct Hup as (Hsec & Hdom & _ & _ & _ & _ & _ & _ & Hpu & _ & Hdom' & _).
  split; [exact Hdom'|]. intros events Hev.
  pose proof (run_keeps_pendingUpgrade events s' Hev Hdom') as Hrun.
  rewrite Hpu in Hrun.
  unfold Socket_ok in Hr. rewrite Hsec, Hdom, !orb_false_r in Hr.
  apply andb_prop in Hr. destruct Hr as [_ Hcb].
  unfold upgradeCallback_present in Hcb.
  destruct (tlsStarter s) as [[starter|]|]; try discriminate Hcb.
  destruct (run events s') as [c r w cf o st sc d cip eof sl peb pu].
  cbn [pendingUpgrade] in Hrun. subst pu.
  destruct tlsOptions as [[[h|]]|]; reflexivity.
Qed.

Lemma upgrade_calls_starter_with_expected_hostname_witness :
  fst (onFlushSettled Fulfills
         (run [WriteDisconnected]
            (snd (startTls (Some (mkTlsOptions (Some "smtp.example.com"))) socket0))))
  = inr (Some "smtp.example.com").
Proof.
  exact (proj2 (upgrade_calls_starter_with_expected_hostname socket0
                  (Some (mkTlsOptions (Some "smtp.example.com")))
                  socket0_upgraded
                  (snd (startTls (Some (mkTlsOptions (Some "smtp.example.com"))) socket0))
                  (reachable_connect _ _ _ _ connect_socket0) eq_refl)
           [WriteDisconnected] eq_refl).
Defined.

(** ** Where a rejection of the closed signal comes from *)

(** X7.  The closed signal of a socket is rejected by four paths only, each
    with its own kind of reason: [close] when the cancel of the read half
    fails (the tunneled JavaScript error), the proxy status handler on a
    status outside 200..299 (the generic proxy failure), the continuation of
    the error-body read (a message starting with [jsg.Error: ]), and the EOF
    handler when closing the write half fails (the JavaScript error itself).
    A write disconnect, an upgrade, or a failed abort in [close] never
    rejects it. *)
Theorem rejection_provenance :
  forall (s : Socket) (e : Event) (reason : Reason),
    closeFulfiller s = Pending ->
    closeFulfiller (snd (step e s)) = Rejected reason ->
    match e with
    | CallClose (Rejects exc) _ => reason = Tunneled exc
    | ProxyStatus status _ =>
        reason = KjException "jsg.Error: proxy request failed"
        /\ (statusCode status <? 200)%N || (300 <=? statusCode status)%N = true
    | ErrorBodyReadDone _ => exists text, reason = KjException ("jsg.Error: " ++ text)
    | ReadableEof false (Rejects exc) => reason = JsHandle exc
    | _ => False
    end.
Proof.
  intros s e reason Hp.
  destruct s as [conn r w cf opts st sec dom cip eof sl peb pu].
  cbn [closeFulfiller] in Hp. subst cf.
  destruct e as [c a | t | | status heap | memory | cc closes | f]; intros H;
    unfold_socket_in H;
    repeat (break_inner_in H; unfold_socket_in H; try discriminate H);
    try discriminate H;
    try (injection H as <-); try reflexivity;
    try (split; [reflexivity | assumption]);
    try (eexists; reflexivity).
Qed.

Lemma rejection_provenance_witness :
  Tunneled "stream errored" = Tunneled "stream errored".
Proof.
  exact (rejection_provenance socket0 (CallClose (Rejects "stream errored") Fulfills)
           (Tunneled "stream errored") eq_refl eq_refl).
Defined.

(** ** Options *)

Lemma startTls_error_keeps_options tlsOptions s e s' :
  startTls tlsOptions s = (inl e, s') -> options s' = options s.
Proof.
  destruct s as [conn r w cf opts st sec dom cip eof sl peb pu].
  intros H. unfold_socket_in H.
  repeat (break_inner_in H; unfold_socket_in H; try discriminate H);
    injection H as <- <-; reflexivity.
Qed.

Lemma step_changes_options (e : Event) (s : Socket) :
  options (snd (step e s)) = options s
  \/ (options (snd (step e s)) = None
      /\ exists tlsOptions new,
           e = CallStartTls tlsOptions
           /\ fst (step e s) = inr (VSocket new)
           /\ options new = options s).
Proof.
  destruct e as [c a | t | | status heap | memory | cc closes | f];
    try (left; destruct s; unfold_socket; repeat (break_inner; unfold_socket);
         reflexivity).
  destruct (startTls t s) as [[err|new] s'] eqn:Hup.
  - left. rewrite step_startTls_snd, Hup. cbn [snd].
    eapply startTls_error_keeps_options; eassumption.
  - right. rewrite step_startTls_snd, Hup. cbn [snd].
    pose proof (startTls_returns_upgraded _ _ _ _ Hup) as Hnew.
    assert (Hfst : fst (step (CallStartTls t) s) = inr (VSocket new))
      by (unfold step, bind, ret; rewrite Hup; reflexivity).
    apply startTls_inv in Hup.
    destruct Hup as (_ & _ & _ & _ & _ & _ & _ & _ & _ & Hopts & _).
    split; [exact Hopts|].
    exists t, new. split; [reflexivity|]. split; [exact Hfst|].
    subst new. reflexivity.
Qed.

(** X8.  The options of a socket change only when [startTls] succeeds on
    it, which empties them and hands them to the new socket: every other
    event, and every [startTls] that throws, leaves them as they are; and
    when the options after a sequence of events differ from the options
    before, they are empty and one of the events was a [startTls] call that
    returned a new socket.  So the half-open policy and the secure transport
    mode a socket was created with cannot be switched later. *)
Theorem options_only_emptied :
  (forall (e : Event) (s : Socket),
      options (snd (step e s)) = options s
      \/ (options (snd (step e s)) = None
          /\ exists tlsOptions new,
               e = CallStartTls tlsOptions
               /\ fst (step e s) = inr (VSocket new)
               /\ options new = options s))
  /\ (forall (events : list Event) (s : Socket),
        options (run events s) = options s
        \/ (options (run events s) = None
            /\ exists before tlsOptions after new,
                 events = (before ++ CallStartTls tlsOptions :: after)%list
                 /\ fst (step (CallStartTls tlsOptions) (run before s))
                    = inr (VSocket new)
                 /\ options new = options (run before s))).
Proof.
  split; [exact step_changes_options|].
  induction events as [|e events IH]; intros s; [left; reflexivity|].
  change (run (e :: events) s) with (run events (snd (step e s))).
  destruct (IH (snd (step e s)))
    as [Hrest | (Hnone & before & t & after & new & -> & Hstep & Hnew)].
  - destruct (step_changes_options e s) as [Hs | (Hs & t & new & -> & Hstep & Hnew)].
    + left. rewrite Hrest. exact Hs.
    + right. split; [rewrite Hrest; exact Hs|].
      exists nil, t, events, new. repeat split; assumption.
  - right. split; [exact Hnone|].
    exists (e :: before)%list, t, after, new. repeat split; assumption.
Qed.

(** ** connect *)

Lemma parseSecureTransport_on (o : SocketOptions) (kind : SecureTransportKind) :
  parseSecureTransport o = inr kind ->
  SecureTransportKind_eqb kind ON = wants_tls (Some o).
Proof.
  unfold parseSecureTransport, wants_tls.
  destruct (secureTransport o) as [v|]; [|intros [= <-]; reflexivity].
  cbv zeta.
  destruct (String.eqb_spec (c_str v) "off") as [->|_]; [intros [= <-]; reflexivity|].
  destruct (String.eqb_spec (c_str v) "starttls") as [->|_];
    [intros [= <-]; reflexivity|].
  destruct (String.eqb (c_str v) "on"); [intros [= <-]; reflexivity | discriminate].
Qed.

Lemma connect_options_parse ctx address opts s :
  connectImplNoOutputLock ctx address opts = inr s ->
  options s = opts
  /\ match opts with
     | Some o => exists kind, parseSecureTransport o = inr kind
     | None => True
     end.
Proof.
  unfold connectImplNoOutputLock, andThen, require, HttpClient_connect.
  destruct (domain_of ctx address) as [e|dom]; [discriminate|].
  destruct (isValidHost (addressStr_of address)); [|discriminate].
  destruct (negb (isFiddle ctx)); [|discriminate].
  assert (Hparse : match opts with
                   | Some o => exists kind, parseSecureTransport o = inr kind
                   | None => True
                   end \/ exists e, match opts with
                                    | Some o => match parseSecureTransport o with
                                                | inl e => inl e
                                                | inr a => inr (SecureTransportKind_eqb a ON)
                                                end
                                    | None => inr false
                                    end = inl e).
  { destruct opts as [o|]; [|left; exact I].
    destruct (parseSecureTransport o) as [e|kind];
      [right; exists e; reflexivity | left; exists kind; reflexivity]. }
  destruct Hparse as [Hparse | [e He]]; [|rewrite He; discriminate].
  destruct (match opts with
            | Some o => _
            | None => _
            end) as [e|useTls]; [discriminate|].
  cbv beta iota zeta. rewrite setupSocket_eq.
  unfold handleProxyStatus, modify. intros [= <-]. split; [reflexivity | exact Hparse].
Qed.

(** X9.  A socket built by [connect] starts out with a pending closed signal,
    untouched halves, no read or upgrade pending, the caller's options, the
    proxy status handler attached and the EOF continuation attached unless
    the options allow half-open operation; it talks to the address string
    ([hostname:port] for a structured address); it is secure exactly when
    [secureTransport], read as a C string (up to its first NUL), is [on];
    and [connect] only builds it outside web preview mode. *)
Theorem connect_builds_fresh_socket :
  forall (ctx : Context) (address : AnySocketAddress) (opts : option SocketOptions)
         (s : Socket),
    connectImplNoOutputLock ctx address opts = inr s ->
    isFiddle ctx = false
    /\ domain_of ctx address = inr (domain s)
    /\ connectionStream s = Tunnel (addressStr_of address) (wants_tls opts)
    /\ isSecureSocket s = wants_tls opts
    /\ options s = opts
    /\ closeFulfiller s = Pending
    /\ readable s = newReadable
    /\ writable s = newWritable
    /\ closureInProgress s = false
    /\ eofListener s = negb (getAllowHalfOpen opts)
    /\ statusListener s = true
    /\ pendingErrorBody s = None
    /\ pendingUpgrade s = None.
Proof.
  intros ctx address opts s.
  unfold connectImplNoOutputLock, andThen, require, HttpClient_connect.
  destruct (domain_of ctx address) as [e|dom]; [discriminate|].
  destruct (isValidHost (addressStr_of address)); [|discriminate].
  destruct (isFiddle ctx); [discriminate|]. cbn [negb].
  assert (Htls : forall useTls,
            match opts with
            | Some o => match parseSecureTransport o with
                        | inl e => inl e
                        | inr a => inr (SecureTransportKind_eqb a ON)
                        end
            | None => inr false
            end = inr useTls -> useTls = wants_tls opts).
  { intros useTls. destruct opts as [o|]; [|intros [= <-]; reflexivity].
    destruct (parseSecureTransport o) as [e|kind] eqn:Hparse; [discriminate|].
    intros [= <-]. apply parseSecureTransport_on, Hparse. }
  destruct (match opts with
            | Some o => _
            | None => _
            end) as [e|useTls]; [discriminate|].
  specialize (Htls useTls eq_refl). subst useTls.
  cbv beta iota zeta. rewrite setupSocket_eq.
  unfold handleProxyStatus, modify. intros [= <-].
  repeat split; reflexivity.
Qed.

Lemma connect_builds_fresh_socket_witness :
  isSecureSocket socket0 = false /\ statusListener socket0 = true.
Proof.
  pose proof (connect_builds_fresh_socket _ _ _ _ connect_socket0)
    as (_ & _ & _ & Hsec & _ & _ & _ & _ & _ & _ & Hsl & _).
  split; [exact Hsec | exact Hsl].
Defined.

(** ** The errors of startTls *)

Lemma reachable_options_parse (s : Socket) :
  reachable s ->
  match options s with
  | Some o => exists kind, parseSecureTransport o = inr kind
  | None => True
  end.
Proof.
  induction 1 as [ctx address opts s Hc | e s _ IH | tlsOptions s new s' _ IH Hup].
  - apply connect_options_parse in Hc. destruct Hc as [-> Hparse]. exact Hparse.
  - destruct (step_options e s) as [-> | ->]; [exact IH | exact I].
  - apply startTls_returns_upgraded in Hup. subst new. exact IH.
Qed.

(** X10.  On a reachable socket [startTls] throws nothing but its three
    precondition errors, and whenever it throws it has changed nothing: an
    unsupported [secureTransport] value never gets that far, since [connect]
    has refused it. *)
Theorem startTls_errors :
  forall (s : Socket) (tlsOptions : option TlsOptions) (e : Exn) (s' : Socket),
    reachable s ->
    startTls tlsOptions s = (inl e, s') ->
    s' = s
    /\ (e = TypeError "Cannot startTls on a TLS socket."
        \/ e = TypeError "startTls can only be called once."
        \/ e = TypeError invalidOptKindMsg).
Proof.
  intros s tlsOptions e s' Hr H.
  apply reachable_options_parse in Hr.
  destruct s as [conn r w cf opts st sec dom cip eof sl peb pu].
  cbn [options] in Hr. unfold_socket_in H.
  destruct sec; unfold_socket_in H; [injection H as <- <-; auto|].
  destruct (String.eqb dom ""); unfold_socket_in H; [injection H as <- <-; auto|].
  destruct opts as [o|]; unfold_socket_in H; [|injection H as <- <-; auto].
  destruct Hr as [kind Hparse]. rewrite Hparse in H. unfold_socket_in H.
  destruct (SecureTransportKind_eqb kind STARTTLS); unfold_socket_in H;
    [|injection H as <- <-; auto].
  destruct (allowHalfOpen o); discriminate H.
Qed.

Lemma startTls_errors_witness :
  socket0_upgraded = socket0_upgraded
  /\ (TypeError "Cannot startTls on a TLS socket."
      = TypeError "Cannot startTls on a TLS socket."
      \/ TypeError "Cannot startTls on a TLS socket."
         = TypeError "startTls can only be called once."
      \/ TypeError "Cannot startTls on a TLS socket." = TypeError invalidOptKindMsg).
Proof.
  exact (startTls_errors socket0_upgraded None _ _
           (reachable_upgrade None socket0 socket0_upgraded socket0_after_startTls
              (reachable_connect _ _ _ _ connect_socket0) eq_refl)
           eq_refl).
Defined.

(** ** The validator *)

Lemma host_chars_app (a b : string) :
  host_chars (a ++ b) = host_chars a && host_chars b.
Proof.
  induction a as [|c a IH]; [reflexivity|].
  cbn [append host_chars]. destruct (host_char c); [exact IH | reflexivity].
Qed.

(** X11.  The validator looks at every character: a text with a character
    outside [A-Za-z0-9._:\[\]-] at any position is rejected, whatever
    surrounds it.  So no address [connect] accepts contains a slash, an at
    sign, a question mark, a space or a byte above 127. *)
Theorem isValidHost_rejects_any_bad_character :
  forall (before after : string) (c : ascii),
    in_host_alphabet c = false ->
    isValidHost (before ++ String c after) = false
    /\ forall ctx opts,
         exists message,
           connectImplNoOutputLock ctx (AddressString (before ++ String c after)) opts
           = inl (TypeError message).
Proof.
  intros before after c Hc.
  assert (Hbad : isValidHost (before ++ String c after) = false).
  { unfold isValidHost.
    destruct ((255 <? String.length (before ++ String c after))%nat
              || (String.length (before ++ String c after) =? 0)%nat); [reflexivity|].
    rewrite host_chars_app. cbn [host_chars].
    rewrite host_char_alphabet, Hc. apply andb_false_r. }
  split; [exact Hbad|].
  intros ctx opts. apply connect_rejects_invalid. exact Hbad.
Qed.

Lemma isValidHost_rejects_any_bad_character_witness :
  isValidHost ("example.com" ++ String "/" "admin:80") = false.
Proof.
  exact (proj1 (isValidHost_rejects_any_bad_character "example.com" "admin:80" "/"
                  eq_refl)).
Defined.

Lemma port_text_chars (d : Decimal.uint) :
  host_chars (NilEmpty.string_of_uint d) = true.
Proof. induction d; cbn; assumption || reflexivity. Qed.

Lemma port_text_valid (port : N) :
  host_chars (NilZero.string_of_uint (N.to_uint port)) = true
  /\ (1 <= String.length (NilZero.string_of_uint (N.to_uint port)))%nat.
Proof.
  unfold NilZero.string_of_uint.
  destruct (N.to_uint port) as [|d|d|d|d|d|d|d|d|d|d]; split;
    try reflexivity; try (cbn; lia);
    cbn [NilEmpty.string_of_uint host_chars]; apply port_text_chars.
Qed.

Lemma all_from_spec (test : N -> bool) (count : nat) :
  forall n p,
    all_from test count n = true ->
    (n <= p < n + N.of_nat count)%N ->
    test p = true.
Proof.
  induction count as [|c IH]; intros n p Hall Hp; [lia|].
  cbn [all_from] in Hall. apply andb_prop in Hall. destruct Hall as [Hn Hrest].
  destruct (N.eq_dec p n) as [->|Hne]; [exact Hn|].
  apply (IH (N.succ n)); [exact Hrest | lia].
Qed.

Lemma port_text_short (port : N) :
  (port < 65536)%N ->
  (String.length (NilZero.string_of_uint (N.to_uint port)) <= 5)%nat.
Proof.
  intros Hport. apply Nat.leb_le.
  apply (all_from_spec
           (fun p => (String.length (NilZero.string_of_uint (N.to_uint p)) <=? 5)%nat)
           (Nat.pow 2 16) 0%N port).
  - vm_compute. reflexivity.
  - replace (N.of_nat (Nat.pow 2 16)) with 65536%N by (vm_compute; reflexivity). lia.
Qed.

(** X12.  For a structured address the validator sees [hostname:port], so
    the limit on the host name is tighter than 255: a host name of more than
    253 characters is never accepted, an empty one is, and a host name of at
    most 249 characters of the alphabet is accepted with every 16-bit port. *)
Theorem structured_address_hostname_bounds :
  forall (hostname : string) (port : N),
    (port < 65536)%N ->
    (isValidHost (addressStr_of (AddressRecord hostname port)) = true ->
     host_chars hostname = true /\ (String.length hostname <= 253)%nat)
    /\ (host_chars hostname = true ->
        (String.length hostname <= 249)%nat ->
        isValidHost (addressStr_of (AddressRecord hostname port)) = true).
Proof.
  intros hostname port Hport.
  destruct (port_text_valid port) as [Hchars Hlen].
  pose proof (port_text_short port Hport) as Hshort.
  cbn [addressStr_of]. unfold isValidHost.
  rewrite !length_append, !host_chars_app.
  set (text := NilZero.string_of_uint (N.to_uint port)) in *.
  change (String.length ":") with 1%nat. change (host_chars ":") with true.
  rewrite Hchars, !andb_true_r.
  split.
  - destruct (Nat.ltb_spec 255 (String.length hostname + (1 + String.length text)));
      [discriminate|].
    cbn [orb].
    destruct (String.length hostname + (1 + String.length text) =? 0)%nat;
      [discriminate|].
    intros Hh. split; [exact Hh | lia].
  - intros Hh Hl.
    destruct (Nat.ltb_spec 255 (String.length hostname + (1 + String.length text)));
      [lia|].
    destruct (Nat.eqb_spec (String.length hostname + (1 + String.length text)) 0);
      [lia|].
    exact Hh.
Qed.

Lemma structured_address_hostname_bounds_witness :
  isValidHost (addressStr_of (AddressRecord "mail.example.com" 65535)) = true.
Proof.
  apply (proj2 (structured_address_hostname_bounds "mail.example.com" 65535
                  ltac:(reflexivity))).
  - reflexivity.
  - vm_compute. lia.
Defined.
